(** * MQTT snapshot viewer: ingestion, image store and change notification

    A shallow embedding of the two variants of the viewer:

    - [Single]: [app.py], one subscription, one image slot;
    - [Multi]:  [frigate-viewer/app.py], one slot per [(cam, obj)] pair,
      a gallery listing and a server-sent-event notifier.

    Python values are modelled by the data the handlers really inspect:
    [bytes] are lists of bytes, a [str] is its list of code points, a
    message payload is one of bytes, str or [None].  Module level
    variables become fields of a state record that every handler threads
    through a small state-and-exception monad.  Blocks guarded by
    [with _lock:] run atomically in this sequential model. *)

From Stdlib Require Import List Bool Arith ZArith NArith QArith Lia.
From Stdlib Require Import Strings.String Strings.Ascii Strings.Byte.
From Stdlib Require Import Sorting.Sorted.
Import ListNotations.

Set Implicit Arguments.

(** ** Python built-ins and library routines used by the handlers *)

Module Py.

Local Open Scope N_scope.

Definition bytes := list byte.

(** A [str] is the sequence of its Unicode code points. *)
Definition str := list N.

(** A [str] literal written with ASCII characters. *)
Definition lit (s : string) : str :=
  map N_of_ascii (list_ascii_of_string s).

(** A [bytes] literal written with ASCII characters. *)
Definition blit (s : string) : bytes := list_byte_of_string s.

Definition byte_of (n : N) : byte :=
  match Byte.of_N n with
  | Some b => b
  | None => x00
  end.

Definition bytes_eqb (a b : bytes) : bool :=
  if list_eq_dec Byte.byte_eq_dec a b then true else false.

Definition str_eqb (a b : str) : bool :=
  if list_eq_dec N.eq_dec a b then true else false.

(** Exceptions that can surface in the handlers. *)
Inductive exn : Type :=
| NameError (name : string)
| TypeError
| UnicodeDecodeError
| UnicodeEncodeError
| BinasciiError
| OtherError.

Inductive outcome (A : Type) : Type :=
| Returns (a : A)
| Raises (e : exn).

Arguments Raises {A} e.

(** The values a message payload (or a fetched body) can take. *)
Inductive payload : Type :=
| PBytes (b : bytes)
| PStr (s : str)
| PNone.

(** Truth value of an object, as tested by [if not x] and [x and ...]. *)
Definition truthy (p : payload) : bool :=
  match p with
  | PBytes [] => false
  | PBytes _ => true
  | PStr [] => false
  | PStr _ => true
  | PNone => false
  end.

(** [len(x)]; [None] has no length. *)
Definition len (p : payload) : outcome nat :=
  match p with
  | PBytes b => Returns (List.length b)
  | PStr s => Returns (List.length s)
  | PNone => Raises TypeError
  end.

(** The JPEG start-of-image marker [b"\xff\xd8\xff"]. *)
Definition jpeg_marker : bytes := [xff; xd8; xff]%byte.

(** [x[:3] == b"\xff\xd8\xff"].  A [str] never compares equal to a
    [bytes] object; [None] cannot be sliced. *)
Definition slice3_is_marker (p : payload) : outcome bool :=
  match p with
  | PBytes b => Returns (bytes_eqb (firstn 3 b) jpeg_marker)
  | PStr _ => Returns false
  | PNone => Raises TypeError
  end.

(** *** [base64.b64decode(s, validate=True)]

    The strict mode of [binascii.a2b_base64]: one pass over the input
    keeping the position in the current quad, the bits left over from
    the previous character, the count of pads seen and whether padding
    has started. *)

Definition table_a2b_base64 (c : byte) : option N :=
  let n := Byte.to_N c in
  if (65 <=? n) && (n <=? 90) then Some (n - 65)
  else if (97 <=? n) && (n <=? 122) then Some (n - 97 + 26)
  else if (48 <=? n) && (n <=? 57) then Some (n - 48 + 52)
  else if n =? 43 then Some 62
  else if n =? 47 then Some 63
  else None.

Definition BASE64_PAD : byte := "="%byte.

Fixpoint a2b_loop (data : bytes) (quad_pos leftchar pads : N)
    (padding_started : bool) (out : bytes) : outcome bytes :=
  match data with
  | [] =>
      if quad_pos =? 0 then Returns (rev out) else Raises BinasciiError
  | this_ch :: rest =>
      if Byte.eqb this_ch BASE64_PAD then
        if (2 <=? quad_pos) && (4 <=? quad_pos + (pads + 1)) then
          match rest with
          | [] => Returns (rev out)
          | _ :: _ => Raises BinasciiError
          end
        else
          a2b_loop rest quad_pos leftchar
            (if 2 <=? quad_pos then pads + 1 else pads) true out
      else
        match table_a2b_base64 this_ch with
        | None => Raises BinasciiError
        | Some v =>
            if padding_started then Raises BinasciiError
            else if quad_pos =? 0 then a2b_loop rest 1 v 0 false out
            else if quad_pos =? 1 then
              a2b_loop rest 2 (N.land v 15) 0 false
                (byte_of (N.lor (N.shiftl leftchar 2) (N.shiftr v 4)) :: out)
            else if quad_pos =? 2 then
              a2b_loop rest 3 (N.land v 3) 0 false
                (byte_of (N.lor (N.shiftl leftchar 4) (N.shiftr v 2)) :: out)
            else
              a2b_loop rest 0 0 0 false
                (byte_of (N.lor (N.shiftl leftchar 6) v) :: out)
        end
  end.

Definition b64decode_validate (s : bytes) : outcome bytes :=
  match s with
  | c :: _ =>
      if Byte.eqb c BASE64_PAD then Raises BinasciiError
      else a2b_loop s 0 0 0 false []
  | [] => a2b_loop s 0 0 0 false []
  end.

(** [base64.b64decode] first turns its argument into bytes: a bytes
    object is taken as it is, a [str] must be pure ASCII, anything else
    is a type error. *)
Definition b64decode (s : payload) : outcome bytes :=
  match s with
  | PBytes b => b64decode_validate b
  | PStr t =>
      if forallb (fun c => c <? 128) t
      then b64decode_validate (map byte_of t)
      else Raises OtherError
  | PNone => Raises TypeError
  end.

(** *** UTF-8: [bytes.decode("utf-8")] and [str.encode("utf-8")]

    The strict codec: no overlong forms, no surrogates, nothing above
    U+10FFFF. *)

Definition in_range (b : byte) (lo hi : N) : bool :=
  (lo <=? Byte.to_N b) && (Byte.to_N b <=? hi).

Definition cons_cp (c : N) (r : outcome str) : outcome str :=
  match r with
  | Returns s => Returns (c :: s)
  | Raises e => Raises e
  end.

Fixpoint utf8_decode (bs : bytes) : outcome str :=
  match bs with
  | [] => Returns []
  | b0 :: r0 =>
      let n0 := Byte.to_N b0 in
      if n0 <? 128 then cons_cp n0 (utf8_decode r0)
      else if (194 <=? n0) && (n0 <=? 223) then
        match r0 with
        | b1 :: r1 =>
            if in_range b1 128 191
            then cons_cp ((n0 - 192) * 64 + (Byte.to_N b1 - 128))
                   (utf8_decode r1)
            else Raises UnicodeDecodeError
        | _ => Raises UnicodeDecodeError
        end
      else if (224 <=? n0) && (n0 <=? 239) then
        match r0 with
        | b1 :: b2 :: r2 =>
            if in_range b1 (if n0 =? 224 then 160 else 128)
                 (if n0 =? 237 then 159 else 191)
               && in_range b2 128 191
            then cons_cp ((n0 - 224) * 4096 + (Byte.to_N b1 - 128) * 64
                          + (Byte.to_N b2 - 128))
                   (utf8_decode r2)
            else Raises UnicodeDecodeError
        | _ => Raises UnicodeDecodeError
        end
      else if (240 <=? n0) && (n0 <=? 244) then
        match r0 with
        | b1 :: b2 :: b3 :: r3 =>
            if in_range b1 (if n0 =? 240 then 144 else 128)
                 (if n0 =? 244 then 143 else 191)
               && in_range b2 128 191 && in_range b3 128 191
            then cons_cp ((n0 - 240) * 262144 + (Byte.to_N b1 - 128) * 4096
                          + (Byte.to_N b2 - 128) * 64 + (Byte.to_N b3 - 128))
                   (utf8_decode r3)
            else Raises UnicodeDecodeError
        | _ => Raises UnicodeDecodeError
        end
      else Raises UnicodeDecodeError
  end.

Definition utf8_encode_cp (c : N) : outcome bytes :=
  if c <? 128 then Returns [byte_of c]
  else if c <? 2048 then
    Returns [byte_of (192 + c / 64); byte_of (128 + c mod 64)]
  else if (55296 <=? c) && (c <=? 57343) then Raises UnicodeEncodeError
  else if c <? 65536 then
    Returns [byte_of (224 + c / 4096); byte_of (128 + (c / 64) mod 64);
             byte_of (128 + c mod 64)]
  else if c <? 1114112 then
    Returns [byte_of (240 + c / 262144); byte_of (128 + (c / 4096) mod 64);
             byte_of (128 + (c / 64) mod 64); byte_of (128 + c mod 64)]
  else Raises UnicodeEncodeError.

Fixpoint utf8_encode (s : str) : outcome bytes :=
  match s with
  | [] => Returns []
  | c :: r =>
      match utf8_encode_cp c, utf8_encode r with
      | Returns h, Returns t => Returns (h ++ t)
      | Raises e, _ => Raises e
      | _, Raises e => Raises e
      end
  end.

(** *** [str.strip()], [str.lower().startswith("http")] *)

(** The code points for which [str.isspace] holds. *)
Definition isspace (c : N) : bool :=
  ((9 <=? c) && (c <=? 13)) || ((28 <=? c) && (c <=? 32))
  || (c =? 133) || (c =? 160) || (c =? 5760)
  || ((8192 <=? c) && (c <=? 8202))
  || (c =? 8232) || (c =? 8233) || (c =? 8239) || (c =? 8287)
  || (c =? 12288).

Fixpoint lstrip (s : str) : str :=
  match s with
  | c :: r => if isspace c then lstrip r else s
  | [] => []
  end.

Definition strip (s : str) : str := rev (lstrip (rev (lstrip s))).

(** Lower-casing maps exactly [H]/[h], [T]/[t] and [P]/[p] to the
    letters of ["http"], and maps no code point to the empty string, so
    [s.lower().startswith("http")] is a test on the first four code
    points of [s]. *)
Definition lower_is (c : N) (letter : N) : bool :=
  (c =? letter) || (c =? letter - 32).

Definition lower_startswith_http (s : str) : bool :=
  match s with
  | c0 :: c1 :: c2 :: c3 :: _ =>
      lower_is c0 104 && lower_is c1 116 && lower_is c2 116
      && lower_is c3 112
  | _ => false
  end.

End Py.

(** ** Handlers as state transformers that may raise *)

Module Exec.
Import Py.

Section Monad.
Variable S : Type.

(** A computation over the module state: it ends in a state and either
    a returned value or a raised exception. *)
Definition M (A : Type) : Type := S -> S * outcome A.

Definition ret {A} (a : A) : M A := fun s => (s, Returns a).

Definition raise {A} (e : exn) : M A := fun s => (s, Raises e).

Definition bind {A B} (m : M A) (k : A -> M B) : M B :=
  fun s =>
    match m s with
    | (s', Returns a) => k a s'
    | (s', Raises e) => (s', Raises e)
    end.

(** A pure library call that may raise. *)
Definition lift {A} (o : outcome A) : M A := fun s => (s, o).

Definition get : M S := fun s => (s, Returns s).

Definition put (s' : S) : M unit := fun _ => (s', Returns tt).

(** [try: body  except Exception: handler]. *)
Definition try_except {A} (body : M A) (handler : exn -> M A) : M A :=
  fun s =>
    match body s with
    | (s', Returns a) => (s', Returns a)
    | (s', Raises e) => handler e s'
    end.
End Monad.

Arguments ret {S A} a.
Arguments raise {S A} e.
Arguments lift {S A} o.
Arguments get {S}.

Notation "x <- m ;; k" := (bind m (fun x => k))
  (at level 61, m at next level, right associativity).
Notation "m ;;; k" := (bind m (fun _ => k))
  (at level 61, right associativity).

End Exec.

(** An HTTP response as the handlers build it. *)
Module Http.
Import Py.

(** A header value is either text or the [str()] of a timestamp; the
    decimal rendering of a float is outside the model. *)
Inductive header_value : Type :=
| HText (s : string)
| HTimestamp (ts : Q).

Record response : Type := Response {
  status : nat;
  body : payload;
  mimetype : string;
  headers : list (string * header_value)
}.

(** [Response(status=204)]: no body, no headers of ours. *)
Definition no_content : response :=
  {| status := 204; body := PBytes []; mimetype := "text/html";
     headers := [] |}.

(** The JPEG response both variants build from [(img, ts)]. *)
Definition jpeg_response (img : payload) (ts : Q) : response :=
  {| status := 200; body := img; mimetype := "image/jpeg";
     headers := [("Cache-Control"%string,
                  HText "no-cache, no-store, must-revalidate");
                 ("X-Image-Timestamp"%string, HTimestamp ts)] |}.

End Http.

(** ** Single-topic variant ([app.py]) *)

Module Single.
Import Py Exec Http.

(** [_last_image] and [_last_image_ts]. *)
Record state : Type := State {
  _last_image : payload;
  _last_image_ts : Q
}.

Definition initial : state :=
  {| _last_image := PNone; _last_image_ts := 0 |}.

(** The guarded block
    [with _lock: _last_image = img; _last_image_ts = time.time()]. *)
Definition upsert (img : payload) (ts : Q) : M state unit :=
  put {| _last_image := img; _last_image_ts := ts |}.

(** [store_image_if_jpeg(candidate_bytes)]; [now] is the value
    [time.time()] returns during the call.  The body of the [try] yields
    [Some r] when it executes [return r] and [None] when it falls
    through; exceptions inside it are swallowed. *)
Definition store_image_if_jpeg (candidate_bytes : payload) (now : Q)
  : M state bool :=
  if negb (truthy candidate_bytes) then ret false
  else
    raw <- lift (slice3_is_marker candidate_bytes) ;;
    if raw then
      upsert candidate_bytes now ;;; ret true
    else
      early <- try_except
        (cand <- lift (match candidate_bytes with
                       | PStr s =>
                           match utf8_encode s with
                           | Returns e => Returns (PBytes e)
                           | Raises x => Raises x
                           end
                       | other => Returns other
                       end) ;;
         decoded <- lift (b64decode cand) ;;
         ok <- lift (slice3_is_marker (PBytes decoded)) ;;
         if ok then upsert (PBytes decoded) now ;;; ret (Some true)
         else ret None)
        (fun _ => ret None) ;;
      match early with
      | Some r => ret r
      | None => ret false
      end.

Record message : Type := Message {
  topic : str;
  payload_of : payload
}.

Section Config.
(** The configured subscription and paho's [topic_matches_sub]. *)
Variable MQTT_TOPIC : str.
Variable topic_matches_sub : str -> str -> outcome bool.

(** [on_message(client, userdata, msg)]. *)
Definition on_message (msg : message) (now : Q) : M state unit :=
  lift (len (payload_of msg)) ;;;
  matches <- try_except
    (lift (topic_matches_sub MQTT_TOPIC (topic msg)))
    (fun _ => ret (str_eqb (topic msg) MQTT_TOPIC)) ;;
  if matches then
    store_image_if_jpeg (payload_of msg) now ;;; ret tt
  else ret tt.
End Config.

(** [GET /image.jpg]. *)
Definition image : M state response :=
  st <- get ;;
  let img := _last_image st in
  let ts := _last_image_ts st in
  if negb (truthy img) then ret no_content
  else ret (jpeg_response img ts).

Record status_json : Type := StatusJson {
  has_image : bool;
  last_image_ts : Q;
  last_image_size : nat
}.

(** [GET /status]. *)
Definition status : M state status_json :=
  st <- get ;;
  let has := truthy (_last_image st) in
  size <- (if truthy (_last_image st) then lift (len (_last_image st))
           else ret 0%nat) ;;
  ret {| has_image := has; last_image_ts := _last_image_ts st;
         last_image_size := size |}.

End Single.

(** ** Multi-topic variant ([frigate-viewer/app.py]) *)

Module Multi.
Import Py Exec Http.

(** *** The image table: a dict in insertion order *)

Definition key : Type := (str * str)%type.

Definition key_eq_dec (a b : key) : {a = b} + {a <> b}.
Proof.
  decide equality; apply (list_eq_dec N.eq_dec).
Defined.

(** A stored tuple [(image_bytes, timestamp)]. *)
Definition record : Type := (payload * Q)%type.

(** A dict keeps its keys in the order of their first insertion;
    assigning to a key that is present replaces the value in place. *)
Definition dict : Type := list (key * record).

Fixpoint dict_get (d : dict) (k : key) : option record :=
  match d with
  | [] => None
  | (k', v) :: r => if key_eq_dec k k' then Some v else dict_get r k
  end.

Fixpoint dict_set (d : dict) (k : key) (v : record) : dict :=
  match d with
  | [] => [(k, v)]
  | (k', v') :: r =>
      if key_eq_dec k k' then (k', v) :: r
      else (k', v') :: dict_set r k v
  end.

Definition dict_keys (d : dict) : list key := map fst d.

(** *** Listener queues *)

(** A [queue.Queue()] object: its identity and the items waiting in
    it.  The queues are unbounded, so [put_nowait] always succeeds. *)
Record queue : Type := Queue {
  qid : nat;
  items : list bool
}.

(** [_latest_images], [_sse_clients], and the allocation counter that
    gives every new queue object its identity. *)
Record state : Type := State {
  _latest_images : dict;
  _sse_clients : list queue;
  next_qid : nat
}.

Definition initial : state :=
  {| _latest_images := []; _sse_clients := []; next_qid := 0 |}.

(** The guarded block
    [with _lock: _latest_images[(cam, obj)] = (img, time.time())]. *)
Definition upsert (k : key) (img : payload) (ts : Q) : M state unit :=
  st <- get ;;
  put {| _latest_images := dict_set (_latest_images st) k (img, ts);
         _sse_clients := _sse_clients st;
         next_qid := next_qid st |}.

Definition put_nowait (q : queue) : queue :=
  {| qid := qid q; items := items q ++ [true] |}.

(** [notify_sse_clients()]: one signal into every registered queue. *)
Definition notify_sse_clients : M state unit :=
  st <- get ;;
  put {| _latest_images := _latest_images st;
         _sse_clients := map put_nowait (_sse_clients st);
         next_qid := next_qid st |}.

(** *** The generator behind [GET /events]

    [gen()] is run in three kinds of steps: up to its first [yield],
    from one [yield] to the next, and its [finally] block when the
    stream is closed. *)

Definition update_event : string := "data: update

".

(** Start: create the queue, register it, yield the initial event.
    Returns the queue handle and the events sent. *)
Definition gen_start : M state (nat * list string) :=
  st <- get ;;
  let q := {| qid := next_qid st; items := [] |} in
  put {| _latest_images := _latest_images st;
         _sse_clients := _sse_clients st ++ [q];
         next_qid := S (next_qid st) |} ;;;
  ret (qid q, [update_event]).

Fixpoint queue_get (h : nat) (l : list queue) : option (list queue) :=
  match l with
  | [] => None
  | q :: r =>
      if Nat.eqb (qid q) h then
        match items q with
        | [] => None
        | _ :: rest => Some ({| qid := qid q; items := rest |} :: r)
        end
      else
        match queue_get h r with
        | Some r' => Some (q :: r')
        | None => None
        end
  end.

(** Resume: [q.get()] then [yield].  With an empty queue the generator
    stays blocked: nothing is sent and the state is unchanged. *)
Definition gen_resume (h : nat) : M state (list string) :=
  st <- get ;;
  match queue_get h (_sse_clients st) with
  | Some l =>
      put {| _latest_images := _latest_images st;
             _sse_clients := l;
             next_qid := next_qid st |} ;;;
      ret [update_event]
  | None => ret []
  end.

Fixpoint remove_queue (h : nat) (l : list queue) : list queue :=
  match l with
  | [] => []
  | q :: r => if Nat.eqb (qid q) h then r else q :: remove_queue h r
  end.

(** Close: [if q in _sse_clients: _sse_clients.remove(q)]. *)
Definition gen_close (h : nat) : M state unit :=
  st <- get ;;
  put {| _latest_images := _latest_images st;
         _sse_clients := remove_queue h (_sse_clients st);
         next_qid := next_qid st |}.

(** *** Ingestion *)

Record message : Type := Message {
  topic : str;
  payload_of : payload
}.

(** [s.split("/")]. *)
Fixpoint split (sep : N) (s : str) : list str :=
  match s with
  | [] => [[]]
  | c :: r =>
      if N.eqb c sep then [] :: split sep r
      else
        match split sep r with
        | h :: t => (c :: h) :: t
        | [] => [[c]]
        end
  end.

(** The test
    [len(parts) == 4 and parts[0] == "frigate" and parts[3] == "snapshot"]
    and the key [(parts[1], parts[2])] it selects. *)
Definition route (t : str) : option key :=
  match split 47 t with
  | [p0; cam; obj; p3] =>
      if str_eqb p0 (lit "frigate") && str_eqb p3 (lit "snapshot")
      then Some (cam, obj)
      else None
  | _ => None
  end.

(** Lines 105-137: the raw and base64 checks. *)
Definition store_raw_or_base64 (candidate_bytes : payload)
    (cam obj : str) (now : Q) : M state bool :=
  raw <- lift (slice3_is_marker candidate_bytes) ;;
  if raw then
    upsert (cam, obj) candidate_bytes now ;;;
    notify_sse_clients ;;;
    ret true
  else
    early <- try_except
      (cand <- lift (match candidate_bytes with
                     | PStr s =>
                         match utf8_encode s with
                         | Returns e => Returns (PBytes e)
                         | Raises x => Raises x
                         end
                     | other => Returns other
                     end) ;;
       decoded <- lift (b64decode cand) ;;
       ok <- lift (slice3_is_marker (PBytes decoded)) ;;
       if ok then
         upsert (cam, obj) (PBytes decoded) now ;;;
         notify_sse_clients ;;;
         ret (Some true)
       else ret None)
      (fun _ => ret None) ;;
    match early with
    | Some r => ret r
    | None => ret false
    end.

(** [as_str]: the payload as text, [None] when decoding raises. *)
Definition payload_as_str (candidate_bytes : payload) : option str :=
  match
    match candidate_bytes with
    | PBytes b => utf8_decode b
    | PStr s => Returns s
    | PNone => Returns (lit "None")
    end
  with
  | Returns s => Some s
  | Raises _ => None
  end.

(** [as_str and as_str.strip().lower().startswith("http")]. *)
Definition url_shaped (as_str : option str) : bool :=
  match as_str with
  | Some s => truthy (PStr s) && lower_startswith_http (strip s)
  | None => false
  end.

Section Globals.
(** What the name [fetch_jpeg_from_url] is bound to in the module's
    globals when it is called: [None] when the name is unbound. *)
Variable fetch_jpeg_from_url : option (str -> outcome payload).

Definition call_fetch_jpeg_from_url (url : str) : M state payload :=
  match fetch_jpeg_from_url with
  | Some f => lift (f url)
  | None => raise (NameError "fetch_jpeg_from_url")
  end.

(** [store_image_for_topic(candidate_bytes, cam, obj)]. *)
Definition store_image_for_topic (candidate_bytes : payload)
    (cam obj : str) (now : Q) : M state bool :=
  if negb (truthy candidate_bytes) then ret false
  else
    let as_str := payload_as_str candidate_bytes in
    if url_shaped as_str then
      img <- call_fetch_jpeg_from_url
               (strip (match as_str with Some s => s | None => [] end)) ;;
      ok <- (if truthy img then lift (slice3_is_marker img)
             else ret false) ;;
      if ok then
        upsert (cam, obj) img now ;;;
        notify_sse_clients ;;;
        ret true
      else ret false
    else store_raw_or_base64 candidate_bytes cam obj now.

(** [on_message(client, userdata, msg)]. *)
Definition on_message (msg : message) (now : Q) : M state unit :=
  lift (len (payload_of msg)) ;;;
  match route (topic msg) with
  | Some (cam, obj) =>
      store_image_for_topic (payload_of msg) cam obj now ;;; ret tt
  | None => ret tt
  end.
End Globals.

(** The module as written: nothing defines or imports the fetcher. *)
Definition module_globals : option (str -> outcome payload) := None.

(** *** HTTP reads *)

(** [GET /image/<cam>/<obj>.jpg].  A stored entry is a 2-tuple, which
    is never falsy, so [if not entry] tests absence only. *)
Definition image (cam obj : str) : M state response :=
  st <- get ;;
  match dict_get (_latest_images st) (cam, obj) with
  | None => ret no_content
  | Some (img, ts) => ret (jpeg_response img ts)
  end.

(** [int(ts)] on a float: truncation towards zero. *)
Definition py_int (ts : Q) : Z := Z.quot (Qnum ts) (Zpos (Qden ts)).

(** [ts > n] between a float and an int compares the exact values. *)
Definition float_gt_int (ts : Q) (n : Z) : bool :=
  if Qlt_le_dec (inject_Z n) ts then true else false.

(** One [{"cam": cam, "obj": obj, "ts": int(ts)}] object. *)
Record entry : Type := Entry {
  entry_cam : str;
  entry_obj : str;
  entry_ts : Z
}.

Record gallery_json : Type := GalleryJson {
  images : list entry;
  latest : option entry
}.

(** One turn of the loop over [_latest_images.items()]. *)
Definition gallery_step (acc : list entry * option entry)
    (item : key * record) : list entry * option entry :=
  let '((cam, obj), (_, ts)) := item in
  let e := {| entry_cam := cam; entry_obj := obj; entry_ts := py_int ts |} in
  (fst acc ++ [e],
   match snd acc with
   | None => Some e
   | Some l => if float_gt_int ts (entry_ts l) then Some e else Some l
   end).

(** [GET /gallery]. *)
Definition gallery : M state gallery_json :=
  st <- get ;;
  let r := fold_left gallery_step (_latest_images st) ([], None) in
  ret {| images := fst r; latest := snd r |}.

(** [sorted(set(...))] on strings: ordered by code points, no repeats. *)
Fixpoint str_ltb (a b : str) : bool :=
  match a, b with
  | _, [] => false
  | [], _ :: _ => true
  | x :: a', y :: b' =>
      if N.ltb x y then true
      else if N.eqb x y then str_ltb a' b'
      else false
  end.

Fixpoint insert_sorted (x : str) (l : list str) : list str :=
  match l with
  | [] => [x]
  | y :: r =>
      if str_eqb x y then l
      else if str_ltb x y then x :: l
      else y :: insert_sorted x r
  end.

Definition sorted_set (l : list str) : list str :=
  fold_right insert_sorted [] l.

Record status_json : Type := StatusJson {
  num_images : nat;
  cameras : list str;
  objects : list str
}.

(** [GET /status]. *)
Definition status : M state status_json :=
  st <- get ;;
  let ks := dict_keys (_latest_images st) in
  ret {| num_images := List.length (_latest_images st);
         cameras := sorted_set (map fst ks);
         objects := sorted_set (map snd ks) |}.

(** *** Runs of the server

    Everything that can happen to the module state: a message arrives
    at a given clock reading, or one of the HTTP routes is served. *)
Inductive op : Type :=
| OnMessage (msg : message) (now : Q)
| GetImage (cam obj : str)
| GetGallery
| GetStatus
| EventsOpen
| EventsNext (h : nat)
| EventsClose (h : nat).

Section Runs.
Variable fetch_jpeg_from_url : option (str -> outcome payload).

(** The state an operation leaves behind, whether its handler
    returned or raised. *)
Definition run_op (o : op) (st : state) : state :=
  match o with
  | OnMessage msg now => fst (on_message fetch_jpeg_from_url msg now st)
  | GetImage cam obj => fst (image cam obj st)
  | GetGallery => fst (gallery st)
  | GetStatus => fst (status st)
  | EventsOpen => fst (gen_start st)
  | EventsNext h => fst (gen_resume h st)
  | EventsClose h => fst (gen_close h st)
  end.

Definition run_ops (ops : list op) (st : state) : state :=
  fold_left (fun s o => run_op o s) ops st.
End Runs.

End Multi.

(** ** Start-up and shutdown ([start_mqtt_client], [on_connect], [main])

    The MQTT client and the web server are outside the program; what
    the program does to them is the sequence of calls it makes.  A call
    may raise, which the environment decides from the calls made so
    far. *)

Module Startup.
Import Py Exec.

(** The value of [os.getenv(name, None)]: unset, or a text. *)
Definition env : Type := option str.

(** [if VALUE:] on such a value: set and not empty. *)
Definition env_truthy (v : env) : bool :=
  match v with
  | Some (_ :: _) => true
  | _ => false
  end.

Record config : Type := Config {
  MQTT_BROKER_HOST : str;
  MQTT_BROKER_PORT : Z;
  MQTT_USERNAME : env;
  MQTT_PASSWORD : env;
  MQTT_TOPIC : str;
  MQTT_CLIENT_CERT : env;
  MQTT_CLIENT_KEY : env;
  MQTT_CA_CERT : env;
  HTTP_HOST : str;
  HTTP_PORT : Z
}.

(** The calls made on the client object and on the Flask app;
    [TlsSet] carries the keyword arguments that are passed. *)
Inductive call : Type :=
| UsernamePwSet (username password : env)
| TlsSet (kwargs : list (string * env))
| TlsInsecureSet (value : bool)
| Connect (host : str) (port keepalive : Z)
| LoopStart
| LoopStop
| Disconnect
| Subscribe (topic : str)
| AppRun (host : str) (port : Z).

Definition trace : Type := list call.

Section World.
Variable cfg : config.

(** Which call raises what, given the calls made before it. *)
Variable fails : trace -> call -> option exn.

Definition perform (c : call) : M trace unit :=
  fun tr =>
    (tr ++ [c],
     match fails tr c with
     | Some e => Raises e
     | None => Returns tt
     end).

(** [try: body finally: cleanup]: the cleanup always runs; the
    outcome of the body stands unless the cleanup itself raises. *)
Definition try_finally {A} (body : M trace A) (cleanup : M trace unit)
  : M trace A :=
  fun tr =>
    match body tr with
    | (tr', o) =>
        match cleanup tr' with
        | (tr'', Returns _) => (tr'', o)
        | (tr'', Raises e) => (tr'', Raises e)
        end
    end.

(** [{k: v for k, v in tls_kwargs.items() if v is not None}]. *)
Definition drop_none (kwargs : list (string * env)) : list (string * env) :=
  filter (fun kv => match snd kv with Some _ => true | None => false end)
    kwargs.

(** The TLS part of the multi-topic [start_mqtt_client]. *)
Definition configure_tls : M trace unit :=
  if env_truthy (MQTT_CLIENT_CERT cfg) && env_truthy (MQTT_CLIENT_KEY cfg)
  then
    let tls_kwargs :=
      [("ca_certs"%string,
        if env_truthy (MQTT_CA_CERT cfg) then MQTT_CA_CERT cfg else None);
       ("certfile"%string, MQTT_CLIENT_CERT cfg);
       ("keyfile"%string, MQTT_CLIENT_KEY cfg)] in
    perform (TlsSet (drop_none tls_kwargs)) ;;;
    perform (TlsInsecureSet false)
  else if env_truthy (MQTT_CA_CERT cfg) then
    perform (TlsSet [("ca_certs"%string, MQTT_CA_CERT cfg)]) ;;;
    perform (TlsInsecureSet false)
  else ret tt.

(** [start_mqtt_client()]; [with_tls] tells the multi-topic variant,
    which configures TLS, from the single-topic one, which does not. *)
Definition start_mqtt_client (with_tls : bool) : M trace unit :=
  (if env_truthy (MQTT_USERNAME cfg)
   then perform (UsernamePwSet (MQTT_USERNAME cfg) (MQTT_PASSWORD cfg))
   else ret tt) ;;;
  (if with_tls then configure_tls else ret tt) ;;;
  try_except
    (perform (Connect (MQTT_BROKER_HOST cfg) (MQTT_BROKER_PORT cfg) 60))
    (fun e => raise e) ;;;
  perform LoopStart.

(** [on_connect(client, userdata, flags, rc)]. *)
Definition on_connect (rc : Z) : M trace unit :=
  if Z.eqb rc 0 then perform (Subscribe (MQTT_TOPIC cfg)) else ret tt.

(** [main()]. *)
Definition main (with_tls : bool) : M trace unit :=
  start_mqtt_client with_tls ;;;
  try_finally
    (try_except
       (perform (AppRun (HTTP_HOST cfg) (HTTP_PORT cfg)))
       (fun e => raise e))
    (try_except
       (perform LoopStop ;;; perform Disconnect)
       (fun _ => ret tt)).
End World.

End Startup.

(** ** Notions used to state the properties *)

Import Py Exec Http.

Unset Implicit Arguments.

(** The bytes of a payload: a bytes object itself, a text through
    UTF-8; [None] has none. *)
Definition payload_bytes (p : payload) : option bytes :=
  match p with
  | PBytes b => Some b
  | PStr s =>
      match utf8_encode s with
      | Returns e => Some e
      | Raises _ => None
      end
  | PNone => None
  end.

Definition starts_with_marker (b : bytes) : Prop :=
  firstn 3 b = jpeg_marker.

(** [classified_as p img]: the payload is a JPEG as it stands, or else
    strict base64 of a JPEG; [img] is the image it stands for. *)
Definition classified_as (p : payload) (img : bytes) : Prop :=
  exists b,
    payload_bytes p = Some b /\
    ((starts_with_marker b /\ img = b) \/
     (~ starts_with_marker b /\
      b64decode_validate b = Returns img /\ starts_with_marker img)).

(** The state [store_image_for_topic] leaves after a successful store:
    the record written and one signal sent to every listener. *)
Definition stored (st : Multi.state) (k : Multi.key) (img : payload)
    (ts : Q) : Multi.state :=
  {| Multi._latest_images :=
       Multi.dict_set (Multi._latest_images st) k (img, ts);
     Multi._sse_clients := map Multi.put_nowait (Multi._sse_clients st);
     Multi.next_qid := Multi.next_qid st |}.

(** Queue identities handed out so far are below the counter. *)
Definition queues_fresh (st : Multi.state) : Prop :=
  Forall (fun q => (Multi.qid q < Multi.next_qid st)%nat)
    (Multi._sse_clients st).

(** States of the single-topic server that a run can reach. *)
Inductive single_reachable : Single.state -> Prop :=
| reach_initial : single_reachable Single.initial
| reach_store : forall st p now,
    single_reachable st ->
    single_reachable (fst (Single.store_image_if_jpeg p now st)).

(** The URL payload of the end-to-end scenario. *)
Definition url_payload : payload :=
  PBytes (blit "https://example.com/img.jpg").

Definition snapshot_topic : str := lit "frigate/cam1/person/snapshot".

(** Segments put back together with a separator between them. *)
Fixpoint join (sep : N) (parts : list str) : str :=
  match parts with
  | [] => []
  | [p] => p
  | p :: rest => p ++ sep :: join sep rest
  end.

Ltac run_monad :=
  unfold bind, lift, try_except, ret, raise, get, put,
    Multi.upsert, Multi.notify_sse_clients, Single.upsert,
    slice3_is_marker, b64decode;
  cbv beta iota zeta.

(** The queue a handle denotes: the registered queue with that
    identity, if there is one. *)
Definition find_queue (h : nat) (l : list Multi.queue)
  : option Multi.queue :=
  find (fun q => Nat.eqb (Multi.qid q) h) l.

(** Signals waiting for the listener that holds handle [h]. *)
Definition pending (h : nat) (st : Multi.state) : nat :=
  match find_queue h (Multi._sse_clients st) with
  | Some q => List.length (Multi.items q)
  | None => 0
  end.

(** The classifier as the specification words it: the marker check
    first, strict base64 second, otherwise not an image. *)
Definition classify (p : payload) : option bytes :=
  match payload_bytes p with
  | None => None
  | Some b =>
      if bytes_eqb (firstn 3 b) jpeg_marker then Some b
      else
        match b64decode_validate b with
        | Returns d =>
            if bytes_eqb (firstn 3 d) jpeg_marker then Some d else None
        | Raises _ => None
        end
  end.

(** Base64 text of the five letters [hello]: valid, but no JPEG. *)
Definition base64_hello : payload := PBytes (blit "aGVsbG8=").

(** Base64 text of the bytes [FF D8 FF E0]. *)
Definition base64_jpeg : payload := PBytes (blit "/9j/4A==").

(** *** Base64 as the specification means it

    RFC 4648, section 4: the text is a sequence of groups of four
    characters of the alphabet, each standing for three bytes; the
    last group may end in one pad, standing for two bytes, or in two
    pads, standing for one.  The low bits a padded group leaves unused
    are not constrained (section 3.5 leaves them to the decoder). *)













(** A raw JPEG snapshot of a person from camera [cam]. *)
Definition snapshot_msg (cam : string) : Multi.message :=
  {| Multi.topic := lit "frigate/" ++ lit cam ++ lit "/person/snapshot";
     Multi.payload_of := PBytes jpeg_marker |}.

(** Two cameras reporting within the same second: [camA] was seen
    first, [camB] second, then [camB] sent a snapshot at 10.5 s and
    [camA] one at 10.75 s. *)
Definition two_cameras_run : list Multi.op :=
  [Multi.OnMessage (snapshot_msg "camA") 1;
   Multi.OnMessage (snapshot_msg "camB") 2;
   Multi.OnMessage (snapshot_msg "camB") (21 # 2);
   Multi.OnMessage (snapshot_msg "camA") (43 # 4)].

Definition two_cameras : Multi.dict :=
  [((lit "camA", lit "person"), (PBytes jpeg_marker, 43 # 4));
   ((lit "camB", lit "person"), (PBytes jpeg_marker, 21 # 2))].

(** The gallery object of one table item. *)
Definition entry_of (item : Multi.key * Multi.record) : Multi.entry :=
  {| Multi.entry_cam := fst (fst item);
     Multi.entry_obj := snd (fst item);
     Multi.entry_ts := Multi.py_int (snd (snd item)) |}.

(** A listener resuming [n] times in a row: the state it leaves and
    the events it sends. *)
Fixpoint resume_n (h n : nat) (st : Multi.state)
  : Multi.state * list string :=
  match n with
  | O => (st, [])
  | S m =>
      match Multi.gen_resume h st with
      | (st', Returns evs) =>
          let (st'', rest) := resume_n h m st' in (st'', evs ++ rest)
      | (st', Raises _) => (st', [])
      end
  end.

(** [k] broadcasts in a row. *)
Definition notify_n (k : nat) (st : Multi.state) : Multi.state :=
  Nat.iter k (fun s => fst (Multi.notify_sse_clients s)) st.

(** Registered queues are pairwise distinct objects whose identities
    are below the counter. *)
Definition queues_ok (st : Multi.state) : Prop :=
  NoDup (map Multi.qid (Multi._sse_clients st)) /\ queues_fresh st.

(** Every image in the table is a bytes object starting with the
    marker. *)
Definition table_holds_jpegs (d : Multi.dict) : Prop :=
  forall k img ts,
    In (k, (img, ts)) d ->
    exists b, img = PBytes b /\ starts_with_marker b.

(** Keys are pairwise distinct and their parts contain no ["/"]. *)
Definition keys_ok (d : Multi.dict) : Prop :=
  NoDup (Multi.dict_keys d) /\
  forall k, In k (Multi.dict_keys d) ->
            ~ In 47%N (fst k) /\ ~ In 47%N (snd k).

(** Strictly ascending by code points. *)
Definition str_lt (a b : str) : Prop := Multi.str_ltb a b = true.

(** The calls a computation adds to the trace. *)
Definition calls_of {A} (m : M Startup.trace A) (tr : Startup.trace)
  : list Startup.call :=
  skipn (List.length tr) (fst (m tr)).

(** An environment in which no call raises. *)
Definition never_fails : Startup.trace -> Startup.call -> option exn :=
  fun _ _ => None.

(** Case analysis on the configuration and on the calls that raise,
    with the traces flattened. *)
Ltac trace_cases fails :=
  unfold Startup.start_mqtt_client, Startup.configure_tls,
    Startup.try_finally, Startup.perform, bind, try_except, raise, ret;
  repeat
    (match goal with
     | |- context [Startup.env_truthy ?v] =>
         destruct (Startup.env_truthy v) eqn:?
     | |- context [fails ?h ?c] => destruct (fails h c) eqn:?
     end;
     cbn [andb]; cbv beta iota zeta);
  cbn [fst snd];
  repeat rewrite <- app_assoc in *;
  cbn [app] in *.

(** Not a TLS call. *)
Definition not_tls (c : Startup.call) : Prop :=
  match c with
  | Startup.TlsSet _ => False
  | Startup.TlsInsecureSet _ => False
  | _ => True
  end.

(** A configuration with a client certificate, its key and a CA. *)
Definition sample_config : Startup.config :=
  {| Startup.MQTT_BROKER_HOST := lit "localhost";
     Startup.MQTT_BROKER_PORT := 1883;
     Startup.MQTT_USERNAME := Some (lit "viewer");
     Startup.MQTT_PASSWORD := None;
     Startup.MQTT_TOPIC := lit "frigate/hofcam1/person/snapshot";
     Startup.MQTT_CLIENT_CERT := Some (lit "client.pem");
     Startup.MQTT_CLIENT_KEY := Some (lit "client.key");
     Startup.MQTT_CA_CERT := Some (lit "ca.pem");
     Startup.HTTP_HOST := lit "0.0.0.0";
     Startup.HTTP_PORT := 8080 |}.

(** An environment in which the broker cannot be reached. *)
Definition broker_down : Startup.trace -> Startup.call -> option exn :=
  fun _ c =>
    match c with
    | Startup.Connect _ _ _ => Some OtherError
    | _ => None
    end.

(** An environment in which the web server dies and the network loop
    cannot be stopped. *)
Definition server_dies : Startup.trace -> Startup.call -> option exn :=
  fun _ c =>
    match c with
    | Startup.AppRun _ _ => Some OtherError
    | Startup.LoopStop => Some TypeError
    | _ => None
    end.

(** ** Empty payloads *)

(** C10. An empty payload (zero-length bytes, zero-length text or
    [None]) makes both store operations return [False] at once: the
    state, hence the store and every listener queue, is unchanged and
    nothing is raised, whatever the fetcher is bound to. *)
Theorem empty_payload_returns_false :
  forall (fetch : option (str -> outcome payload)) (cam obj : str)
         (now : Q) (s1 : Single.state) (s2 : Multi.state),
    (Single.store_image_if_jpeg (PBytes []) now s1 = (s1, Returns false) /\
     Single.store_image_if_jpeg (PStr []) now s1 = (s1, Returns false) /\
     Single.store_image_if_jpeg PNone now s1 = (s1, Returns false)) /\
    (Multi.store_image_for_topic fetch (PBytes []) cam obj now s2
       = (s2, Returns false) /\
     Multi.store_image_for_topic fetch (PStr []) cam obj now s2
       = (s2, Returns false) /\
     Multi.store_image_for_topic fetch PNone cam obj now s2
       = (s2, Returns false)).
Proof.
  intros; repeat split; reflexivity.
Qed.

(** ** URL-shaped payloads in the multi-topic variant *)

(** With the fetcher unbound, every URL-shaped payload makes the call
    raise before anything is stored or sent. *)
Lemma store_url_unbound :
  forall p cam obj now st,
    truthy p = true ->
    Multi.url_shaped (Multi.payload_as_str p) = true ->
    Multi.store_image_for_topic None p cam obj now st
      = (st, Raises (NameError "fetch_jpeg_from_url")).
Proof.
  intros p cam obj now st Ht Hu.
  unfold Multi.store_image_for_topic.
  rewrite Ht, Hu. reflexivity.
Qed.

(** With a fetcher bound, a fetch that returns nothing usable gives
    [False] and leaves the state alone; the raw and base64 checks are
    not tried. *)
Lemma store_url_bound_failure :
  forall f p cam obj now st img,
    truthy p = true ->
    Multi.url_shaped (Multi.payload_as_str p) = true ->
    f (strip (match Multi.payload_as_str p with
              | Some s => s
              | None => []
              end)) = Returns img ->
    (truthy img = false \/ slice3_is_marker img = Returns false) ->
    Multi.store_image_for_topic (Some f) p cam obj now st
      = (st, Returns false).
Proof.
  intros f p cam obj now st img Ht Hu Hf Himg.
  unfold Multi.store_image_for_topic.
  rewrite Ht, Hu. cbn [negb].
  unfold bind, Multi.call_fetch_jpeg_from_url, lift. rewrite Hf.
  destruct (truthy img) eqn:Hti.
  - destruct Himg as [Himg | Himg]; [discriminate | ].
    rewrite Himg. reflexivity.
  - reflexivity.
Qed.

(** C2. The per-message handler of the multi-topic variant lets an
    exception escape: on the topic [frigate/cam1/person/snapshot] with
    the payload [https://example.com/img.jpg] it raises [NameError],
    because the module never defines [fetch_jpeg_from_url]. *)
Theorem on_message_url_payload_raises :
  forall (now : Q) (st : Multi.state),
    Multi.on_message Multi.module_globals
      {| Multi.topic := snapshot_topic; Multi.payload_of := url_payload |}
      now st
    = (st, Raises (NameError "fetch_jpeg_from_url")).
Proof.
  intros now st. reflexivity.
Qed.

(** C4. On the URL payload [https://example.com/img.jpg] the store
    operation of the multi-topic variant does not return [False]: the
    call of the undefined [fetch_jpeg_from_url] raises [NameError].
    The state is unchanged, so nothing is stored, no listener is
    signalled and base64 is not tried. *)
Theorem store_url_payload_raises :
  forall (cam obj : str) (now : Q) (st : Multi.state),
    Multi.url_shaped (Multi.payload_as_str url_payload) = true /\
    Multi.store_image_for_topic Multi.module_globals url_payload
      cam obj now st
    = (st, Raises (NameError "fetch_jpeg_from_url")).
Proof.
  intros cam obj now st. split; reflexivity.
Qed.

(** ** The image table *)

Lemma dict_get_set_same :
  forall d k v, Multi.dict_get (Multi.dict_set d k v) k = Some v.
Proof.
  induction d as [| [k' v'] r IH]; intros k v; simpl.
  - destruct (Multi.key_eq_dec k k); congruence.
  - destruct (Multi.key_eq_dec k k') as [E | E]; simpl.
    + rewrite E. destruct (Multi.key_eq_dec k' k'); congruence.
    + destruct (Multi.key_eq_dec k k'); [contradiction | apply IH].
Qed.

Lemma dict_get_set_other :
  forall d k k' v,
    k' <> k -> Multi.dict_get (Multi.dict_set d k v) k' = Multi.dict_get d k'.
Proof.
  induction d as [| [k0 v0] r IH]; intros k k' v Hne; simpl.
  - destruct (Multi.key_eq_dec k' k); [contradiction | reflexivity].
  - destruct (Multi.key_eq_dec k k0) as [E | E]; simpl.
    + subst k0. destruct (Multi.key_eq_dec k' k); [contradiction | reflexivity].
    + destruct (Multi.key_eq_dec k' k0); [reflexivity | now apply IH].
Qed.

Lemma dict_set_idem :
  forall d k v,
    Multi.dict_set (Multi.dict_set d k v) k v = Multi.dict_set d k v.
Proof.
  induction d as [| [k' v'] r IH]; intros k v; simpl.
  - destruct (Multi.key_eq_dec k k); congruence.
  - destruct (Multi.key_eq_dec k k') as [E | E]; simpl.
    + destruct (Multi.key_eq_dec k k'); congruence.
    + destruct (Multi.key_eq_dec k k'); [contradiction | ].
      now rewrite IH.
Qed.

(** Assigning to a key keeps every key that was there, in place. *)
Lemma dict_set_keys :
  forall d k v,
    Multi.dict_keys (Multi.dict_set d k v)
    = if in_dec Multi.key_eq_dec k (Multi.dict_keys d)
      then Multi.dict_keys d
      else Multi.dict_keys d ++ [k].
Proof.
  induction d as [| [k' v'] r IH]; intros k v; simpl.
  - reflexivity.
  - destruct (Multi.key_eq_dec k k') as [E | E]; simpl.
    + destruct (Multi.key_eq_dec k' k); [reflexivity | congruence].
    + destruct (Multi.key_eq_dec k' k); [congruence | ].
      rewrite IH.
      unfold Multi.dict_keys.
      destruct (in_dec Multi.key_eq_dec k (map fst r)); reflexivity.
Qed.


(** C8. Repeating an identical upsert changes nothing after the first
    one: for [N >= 1], [N] writes of the same bytes and timestamp under
    the same key leave the state one write leaves, in the keyed table
    of the multi-topic variant and in the single slot of the
    single-topic variant. *)
Theorem upsert_idempotent :
  forall (N : nat) (k : Multi.key) (b : payload) (t : Q)
         (s : Multi.state) (s1 : Single.state),
    (1 <= N)%nat ->
    Nat.iter N (fun x => fst (Multi.upsert k b t x)) s
      = fst (Multi.upsert k b t s) /\
    Nat.iter N (fun x => fst (Single.upsert b t x)) s1
      = fst (Single.upsert b t s1).
Proof.
  intros N k b t s s1 HN.
  destruct N as [| n]; [lia | clear HN].
  induction n as [| n IH].
  - split; reflexivity.
  - destruct IH as [IHm IHs].
    split.
    + change (Nat.iter (S (S n)) (fun x => fst (Multi.upsert k b t x)) s)
        with (fst (Multi.upsert k b t
                (Nat.iter (S n) (fun x => fst (Multi.upsert k b t x)) s))).
      rewrite IHm.
      unfold Multi.upsert, bind, get, put; simpl.
      now rewrite dict_set_idem.
    + reflexivity.
Qed.

Lemma upsert_idempotent_witness :
  Nat.iter 3 (fun x => fst (Multi.upsert (lit "cam1", lit "person")
                              (PBytes jpeg_marker) (5 # 2) x)) Multi.initial
    = fst (Multi.upsert (lit "cam1", lit "person")
             (PBytes jpeg_marker) (5 # 2) Multi.initial) /\
  Nat.iter 3 (fun x => fst (Single.upsert (PBytes jpeg_marker) (5 # 2) x))
    Single.initial
    = fst (Single.upsert (PBytes jpeg_marker) (5 # 2) Single.initial).
Proof.
  apply (upsert_idempotent 3 (lit "cam1", lit "person")
           (PBytes jpeg_marker) (5 # 2) Multi.initial Single.initial).
  lia.
Defined.

(** ** Topic routing *)

Lemma str_eqb_eq : forall a b, str_eqb a b = true <-> a = b.
Proof.
  intros a b. unfold str_eqb.
  destruct (list_eq_dec N.eq_dec a b); split; congruence.
Qed.

Lemma split_nonempty : forall sep s, Multi.split sep s <> [].
Proof.
  intros sep s. destruct s as [| c r]; simpl; [discriminate | ].
  destruct (N.eqb c sep); [discriminate | ].
  destruct (Multi.split sep r); discriminate.
Qed.

(** Splitting loses nothing: joining the segments gives the text back. *)
Lemma join_split : forall sep s, join sep (Multi.split sep s) = s.
Proof.
  intros sep s. induction s as [| c r IH]; simpl; [reflexivity | ].
  destruct (N.eqb c sep) eqn:E.
  - apply N.eqb_eq in E. subst c.
    destruct (Multi.split sep r) as [| h t] eqn:Hs.
    + now apply split_nonempty in Hs.
    + simpl in *. now rewrite IH.
  - destruct (Multi.split sep r) as [| h t] eqn:Hs.
    + now apply split_nonempty in Hs.
    + destruct t; simpl in *; now rewrite <- IH.
Qed.

(** No segment contains the separator. *)
Lemma split_segments_clean :
  forall sep s, Forall (fun p => ~ In sep p) (Multi.split sep s).
Proof.
  intros sep s. induction s as [| c r IH]; simpl.
  - constructor; [intros [] | constructor].
  - destruct (N.eqb c sep) eqn:E.
    + constructor; [intros [] | exact IH].
    + destruct (Multi.split sep r) as [| h t].
      * constructor; [ | constructor].
        intros [H | []]. subst c. now rewrite N.eqb_refl in E.
      * inversion IH as [| ? ? Hh Ht]; subst.
        constructor; [ | exact Ht].
        intros [H | H]; [ | now apply Hh].
        subst c. now rewrite N.eqb_refl in E.
Qed.

Lemma split_clean_app :
  forall sep a b,
    ~ In sep a -> Multi.split sep (a ++ sep :: b) = a :: Multi.split sep b.
Proof.
  intros sep a b. induction a as [| c r IH]; intros Hn; simpl.
  - now rewrite N.eqb_refl.
  - destruct (N.eqb c sep) eqn:E.
    + apply N.eqb_eq in E. exfalso. apply Hn. now left.
    + rewrite IH; [reflexivity | ].
      intros H. apply Hn. now right.
Qed.

Lemma split_clean :
  forall sep a, ~ In sep a -> Multi.split sep a = [a].
Proof.
  intros sep a. induction a as [| c r IH]; intros Hn; simpl.
  - reflexivity.
  - destruct (N.eqb c sep) eqn:E.
    + apply N.eqb_eq in E. exfalso. apply Hn. now left.
    + rewrite IH; [reflexivity | ].
      intros H. apply Hn. now right.
Qed.

Lemma route_split :
  forall t cam obj,
    Multi.route t = Some (cam, obj) <->
    Multi.split 47 t = [lit "frigate"; cam; obj; lit "snapshot"].
Proof.
  intros t cam obj. unfold Multi.route.
  destruct (Multi.split 47 t) as [| p0 [| c1 [| o1 [| p3 [| x l]]]]];
    try (split; discriminate).
  destruct (str_eqb p0 (lit "frigate")) eqn:E0;
  destruct (str_eqb p3 (lit "snapshot")) eqn:E3; simpl.
  - apply str_eqb_eq in E0, E3. subst. split; congruence.
  - split; [discriminate | ].
    intros H. injection H as -> _ _ H3. subst p3.
    now rewrite (proj2 (str_eqb_eq _ _) eq_refl) in E3.
  - split; [discriminate | ].
    intros H. injection H as H0 _ _ _. subst p0.
    now rewrite (proj2 (str_eqb_eq _ _) eq_refl) in E0.
  - split; [discriminate | ].
    intros H. injection H as H0 _ _ _. subst p0.
    now rewrite (proj2 (str_eqb_eq _ _) eq_refl) in E0.
Qed.

(** The accepted topics, letter by letter. *)
Lemma route_shape :
  forall t cam obj,
    Multi.route t = Some (cam, obj) <->
    t = lit "frigate" ++ 47%N :: cam ++ 47%N :: obj
          ++ 47%N :: lit "snapshot"
    /\ ~ In 47%N cam /\ ~ In 47%N obj.
Proof.
  intros t cam obj. rewrite route_split. split.
  - intros H.
    pose proof (split_segments_clean 47 t) as Hc.
    rewrite H in Hc.
    inversion Hc as [| ? ? _ Hc1]; subst.
    inversion Hc1 as [| ? ? Hcam Hc2]; subst.
    inversion Hc2 as [| ? ? Hobj _]; subst.
    split; [ | now split].
    rewrite <- (join_split 47 t), H. reflexivity.
  - intros (Ht & Hcam & Hobj). subst t.
    rewrite split_clean_app.
    2:{ vm_compute. intuition discriminate. }
    rewrite split_clean_app by exact Hcam.
    rewrite split_clean_app by exact Hobj.
    rewrite split_clean; [reflexivity | ].
    vm_compute. intuition discriminate.
Qed.

(** C5. A topic is accepted with key [(cam, obj)] exactly when
    splitting it on ["/"] gives the four segments [frigate], [cam],
    [obj], [snapshot]; the handler then runs the store operation under
    that key.  Any other topic is dropped: the handler leaves the state
    as it was and, for an actual payload, returns without a result.
    [frigate/cam1/person/snapshot] goes to [(cam1, person)];
    [frigate/cam1/person/clip] and [frigate/cam1/snapshot] are
    rejected. *)
Theorem route_four_segments :
  (forall t cam obj,
     Multi.route t = Some (cam, obj) <->
     Multi.split 47 t = [lit "frigate"; cam; obj; lit "snapshot"]) /\
  (forall fetch t p now st cam obj,
     Multi.route t = Some (cam, obj) ->
     fst (Multi.on_message fetch
            {| Multi.topic := t; Multi.payload_of := p |} now st)
     = fst (Multi.store_image_for_topic fetch p cam obj now st)) /\
  (forall fetch t p now st,
     Multi.route t = None ->
     fst (Multi.on_message fetch
            {| Multi.topic := t; Multi.payload_of := p |} now st) = st /\
     (p <> PNone ->
      Multi.on_message fetch
        {| Multi.topic := t; Multi.payload_of := p |} now st
      = (st, Returns tt))) /\
  Multi.route (lit "frigate/cam1/person/snapshot")
    = Some (lit "cam1", lit "person") /\
  Multi.route (lit "frigate/cam1/person/clip") = None /\
  Multi.route (lit "frigate/cam1/snapshot") = None.
Proof.
  split; [exact route_split | ].
  split.
  { intros fetch t p now st cam obj Hr.
    unfold Multi.on_message, bind, lift; simpl.
    rewrite Hr.
    destruct p; simpl;
      try (destruct (Multi.store_image_for_topic fetch _ cam obj now st)
             as [s' [r | e]]; reflexivity).
    reflexivity. }
  split.
  { intros fetch t p now st Hr.
    unfold Multi.on_message, bind, lift; simpl.
    rewrite Hr.
    destruct p; simpl; split; try reflexivity; congruence. }
  repeat split; reflexivity.
Qed.

Lemma route_four_segments_witness :
  fst (Multi.on_message Multi.module_globals
         {| Multi.topic := lit "frigate/cam1/person/clip";
            Multi.payload_of := PBytes jpeg_marker |} 0 Multi.initial)
    = Multi.initial /\
  fst (Multi.on_message Multi.module_globals
         {| Multi.topic := snapshot_topic;
            Multi.payload_of := PBytes jpeg_marker |} 0 Multi.initial)
    = fst (Multi.store_image_for_topic Multi.module_globals
             (PBytes jpeg_marker) (lit "cam1") (lit "person") 0
             Multi.initial).
Proof.
  split.
  - apply (proj1 (proj2 (proj2 route_four_segments)) Multi.module_globals
             (lit "frigate/cam1/person/clip") (PBytes jpeg_marker) 0
             Multi.initial).
    reflexivity.
  - apply (proj1 (proj2 route_four_segments) Multi.module_globals
             snapshot_topic (PBytes jpeg_marker) 0 Multi.initial
             (lit "cam1") (lit "person")).
    reflexivity.
Defined.

(** ** What a store operation can do to the state *)


(** The raw and base64 checks either store one image under the key and
    signal every listener, returning [True], or leave the state alone
    and do not return [True]. *)
Lemma store_raw_or_base64_cases :
  forall p cam obj now st,
    (exists img,
       Multi.store_raw_or_base64 p cam obj now st
       = (stored st (cam, obj) img now, Returns true)) \/
    (exists o,
       Multi.store_raw_or_base64 p cam obj now st = (st, o) /\
       o <> Returns true).
Proof.
  intros p cam obj now st.
  unfold Multi.store_raw_or_base64.
  destruct p as [b | s | ]; run_monad.
  - destruct (bytes_eqb (firstn 3 b) jpeg_marker).
    + left. now exists (PBytes b).
    + destruct (b64decode_validate b) as [d | e]; run_monad.
      * destruct (bytes_eqb (firstn 3 d) jpeg_marker).
        -- left. now exists (PBytes d).
        -- right. eexists; split; [reflexivity | discriminate].
      * right. eexists; split; [reflexivity | discriminate].
  - destruct (utf8_encode s) as [e | x]; run_monad.
    + destruct (b64decode_validate e) as [d | e']; run_monad.
      * destruct (bytes_eqb (firstn 3 d) jpeg_marker).
        -- left. now exists (PBytes d).
        -- right. eexists; split; [reflexivity | discriminate].
      * right. eexists; split; [reflexivity | discriminate].
    + right. eexists; split; [reflexivity | discriminate].
  - right. eexists; split; [reflexivity | discriminate].
Qed.

Lemma store_image_for_topic_cases :
  forall fetch p cam obj now st,
    (exists img,
       Multi.store_image_for_topic fetch p cam obj now st
       = (stored st (cam, obj) img now, Returns true)) \/
    (exists o,
       Multi.store_image_for_topic fetch p cam obj now st = (st, o) /\
       o <> Returns true).
Proof.
  intros fetch p cam obj now st.
  unfold Multi.store_image_for_topic.
  destruct (truthy p); cbn [negb].
  2:{ right. eexists; split; [reflexivity | discriminate]. }
  destruct (Multi.url_shaped (Multi.payload_as_str p)).
  2:{ apply store_raw_or_base64_cases. }
  unfold Multi.call_fetch_jpeg_from_url.
  destruct fetch as [f | ]; run_monad.
  2:{ right. eexists; split; [reflexivity | discriminate]. }
  destruct (f _) as [img | e]; run_monad.
  2:{ right. eexists; split; [reflexivity | discriminate]. }
  destruct (truthy img); run_monad.
  2:{ right. eexists; split; [reflexivity | discriminate]. }
  fold (slice3_is_marker img).
  destruct (slice3_is_marker img) as [[ | ] | e]; run_monad.
  - left. now exists img.
  - right. eexists; split; [reflexivity | discriminate].
  - right. eexists; split; [reflexivity | discriminate].
Qed.

(** The same for a whole message: the handler changes the state only
    by a successful store under the key its topic routes to. *)
Lemma on_message_cases :
  forall fetch msg now st,
    fst (Multi.on_message fetch msg now st) = st \/
    (exists k img,
       Multi.route (Multi.topic msg) = Some k /\
       fst (Multi.on_message fetch msg now st) = stored st k img now).
Proof.
  intros fetch [t p] now st.
  unfold Multi.on_message, Multi.topic, Multi.payload_of. run_monad.
  destruct (len p) as [n | e]; run_monad.
  2:{ now left. }
  destruct (Multi.route t) as [[cam obj] | ] eqn:Hr; run_monad.
  2:{ now left. }
  destruct (store_image_for_topic_cases fetch p cam obj now st)
    as [[img H] | [o [H Ho]]]; rewrite H; run_monad.
  - right. now exists (cam, obj), img.
  - left. destruct o; reflexivity.
Qed.

(** ** Lifetime of the entries *)

(** Serving an HTTP route never touches the image table. *)
Lemma reads_keep_table :
  forall st cam obj h,
    fst (Multi.image cam obj st) = st /\
    fst (Multi.gallery st) = st /\
    fst (Multi.status st) = st /\
    Multi._latest_images (fst (Multi.gen_start st)) = Multi._latest_images st /\
    Multi._latest_images (fst (Multi.gen_resume h st)) = Multi._latest_images st /\
    Multi._latest_images (fst (Multi.gen_close h st)) = Multi._latest_images st.
Proof.
  intros st cam obj h. repeat split.
  - unfold Multi.image. run_monad.
    destruct (Multi.dict_get (Multi._latest_images st) (cam, obj))
      as [[img ts] | ]; reflexivity.
  - unfold Multi.gen_resume. run_monad.
    destruct (Multi.queue_get h (Multi._sse_clients st)); reflexivity.
Qed.

Lemma run_op_table :
  forall fetch o st,
    Multi._latest_images (Multi.run_op fetch o st) = Multi._latest_images st \/
    (exists msg now k img,
       o = Multi.OnMessage msg now /\
       Multi.route (Multi.topic msg) = Some k /\
       Multi._latest_images (Multi.run_op fetch o st)
       = Multi.dict_set (Multi._latest_images st) k (img, now)).
Proof.
  intros fetch o st.
  destruct (reads_keep_table st [] [] 0) as (_ & Hg & Hs & Ho & _ & _).
  destruct o as [msg now | cam obj | | | | h | h]; cbn [Multi.run_op].
  - destruct (on_message_cases fetch msg now st) as [H | (k & img & Hr & H)].
    + left. now rewrite H.
    + right. exists msg, now, k, img. rewrite H. now repeat split.
  - left. now rewrite (proj1 (reads_keep_table st cam obj 0)).
  - left. now rewrite Hg.
  - left. now rewrite Hs.
  - left. exact Ho.
  - left. apply (reads_keep_table st [] [] h).
  - left. apply (reads_keep_table st [] [] h).
Qed.




(** ** Change notification *)

Lemma find_queue_put :
  forall h l,
    find_queue h (map Multi.put_nowait l)
    = option_map Multi.put_nowait (find_queue h l).
Proof.
  intros h l. unfold find_queue.
  induction l as [| q r IH]; simpl; [reflexivity | ].
  destruct (Nat.eqb (Multi.qid q) h); [reflexivity | exact IH].
Qed.

Lemma find_queue_fresh :
  forall h l q,
    Forall (fun x => (Multi.qid x < h)%nat) l ->
    Multi.qid q = h ->
    find_queue h (l ++ [q]) = Some q.
Proof.
  intros h l q Hl Hq. unfold find_queue.
  induction Hl as [| x r Hx _ IH]; simpl.
  - rewrite Hq, Nat.eqb_refl. reflexivity.
  - destruct (Nat.eqb (Multi.qid x) h) eqn:E; [ | exact IH].
    apply Nat.eqb_eq in E. lia.
Qed.

(** [q.get()] on the listener's queue: blocked when nothing is
    pending, otherwise one signal fewer. *)
Lemma queue_get_pending :
  forall h l,
    match find_queue h l with
    | Some q =>
        match Multi.items q with
        | [] => Multi.queue_get h l = None
        | _ :: rest =>
            exists l',
              Multi.queue_get h l = Some l' /\
              find_queue h l'
              = Some {| Multi.qid := Multi.qid q; Multi.items := rest |}
        end
    | None => Multi.queue_get h l = None
    end.
Proof.
  intros h l. unfold find_queue.
  induction l as [| q r IH]; simpl; [reflexivity | ].
  destruct (Nat.eqb (Multi.qid q) h) eqn:E.
  - destruct (Multi.items q) as [| x rest]; [reflexivity | ].
    eexists; split; [reflexivity | ].
    simpl. now rewrite E.
  - destruct (find (fun q0 => Nat.eqb (Multi.qid q0) h) r) as [q' | ].
    + destruct (Multi.items q') as [| x rest].
      * now rewrite IH.
      * destruct IH as (l' & Hg & Hf). rewrite Hg.
        eexists; split; [reflexivity | ].
        simpl. now rewrite E.
    + now rewrite IH.
Qed.

Lemma gen_resume_pending :
  forall st h,
    match pending h st with
    | O => Multi.gen_resume h st = (st, Returns [])
    | S n =>
        exists st',
          Multi.gen_resume h st = (st', Returns [Multi.update_event]) /\
          pending h st' = n /\
          Multi._latest_images st' = Multi._latest_images st
    end.
Proof.
  intros st h. unfold pending, Multi.gen_resume. run_monad.
  pose proof (queue_get_pending h (Multi._sse_clients st)) as H.
  destruct (find_queue h (Multi._sse_clients st)) as [q | ].
  - destruct (Multi.items q) as [| x rest]; simpl.
    + now rewrite H.
    + destruct H as (l' & Hg & Hf). rewrite Hg.
      eexists; split; [reflexivity | ].
      simpl. now rewrite Hf.
  - now rewrite H.
Qed.

Lemma remove_queue_fresh :
  forall n h l,
    Forall (fun x => (Multi.qid x < n)%nat) l ->
    Forall (fun x => (Multi.qid x < n)%nat) (Multi.remove_queue h l).
Proof.
  intros n h l Hl. induction Hl as [| x r Hx Hr IH]; simpl.
  - constructor.
  - destruct (Nat.eqb (Multi.qid x) h); [exact Hr | now constructor].
Qed.

Lemma queue_get_fresh :
  forall n h l l',
    Forall (fun x => (Multi.qid x < n)%nat) l ->
    Multi.queue_get h l = Some l' ->
    Forall (fun x => (Multi.qid x < n)%nat) l'.
Proof.
  intros n h l. induction l as [| q r IH]; intros l' Hl Hg; simpl in Hg.
  - discriminate.
  - inversion Hl as [| ? ? Hq Hr]; subst.
    destruct (Nat.eqb (Multi.qid q) h).
    + destruct (Multi.items q); [discriminate | ].
      injection Hg as <-. now constructor.
    + destruct (Multi.queue_get h r) as [r' | ]; [ | discriminate].
      injection Hg as <-. constructor; [exact Hq | now apply IH].
Qed.

Lemma stored_fresh :
  forall st k img ts, queues_fresh st -> queues_fresh (stored st k img ts).
Proof.
  intros st k img ts H. unfold queues_fresh, stored in *; simpl.
  apply Forall_map. exact H.
Qed.

(** Handles stay below the counter along every run. *)
Lemma run_op_fresh :
  forall fetch o st, queues_fresh st -> queues_fresh (Multi.run_op fetch o st).
Proof.
  intros fetch o st H.
  destruct (reads_keep_table st [] [] 0) as (_ & Hg & Hs & _).
  destruct o as [msg now | cam obj | | | | h | h]; cbn [Multi.run_op].
  - destruct (on_message_cases fetch msg now st) as [E | (k & img & _ & E)];
      rewrite E; [exact H | now apply stored_fresh].
  - now rewrite (proj1 (reads_keep_table st cam obj 0)).
  - now rewrite Hg.
  - now rewrite Hs.
  - unfold queues_fresh, Multi.gen_start in *. run_monad. simpl.
    apply Forall_app. split.
    + eapply Forall_impl; [ | exact H]. simpl. intros; lia.
    + constructor; [simpl; lia | constructor].
  - unfold queues_fresh, Multi.gen_resume in *. run_monad.
    destruct (Multi.queue_get h (Multi._sse_clients st)) as [l' | ] eqn:E;
      simpl; [ | exact H].
    eapply queue_get_fresh; eassumption.
  - unfold queues_fresh, Multi.gen_close in *. run_monad. simpl.
    now apply remove_queue_fresh.
Qed.

(** C6. Opening the event stream sends exactly one event at once and
    registers a new queue with nothing pending.  A store that returns
    [True] puts one signal into the queue of every listener registered
    at that moment, so each of them has at least one signal waiting;
    every waiting signal is turned into exactly one event when the
    listener resumes, and a listener with nothing waiting sends
    nothing.  A listener that subscribes after a store starts with an
    empty queue: past its immediate first event it stays blocked until
    a later change.  Queue handles are below the allocation counter at
    startup and after every operation. *)
Theorem sse_notification :
  (forall st,
     snd (Multi.gen_start st)
       = Returns (Multi.next_qid st, [Multi.update_event]) /\
     Multi._sse_clients (fst (Multi.gen_start st))
       = Multi._sse_clients st
         ++ [{| Multi.qid := Multi.next_qid st; Multi.items := [] |}]) /\
  (forall fetch p cam obj now st st',
     Multi.store_image_for_topic fetch p cam obj now st
       = (st', Returns true) ->
     Multi._sse_clients st' = map Multi.put_nowait (Multi._sse_clients st) /\
     forall h q,
       find_queue h (Multi._sse_clients st) = Some q ->
       find_queue h (Multi._sse_clients st')
         = Some {| Multi.qid := Multi.qid q;
                   Multi.items := Multi.items q ++ [true] |} /\
       pending h st' = S (pending h st)) /\
  (forall st h,
     match pending h st with
     | O => Multi.gen_resume h st = (st, Returns [])
     | S n =>
         exists st',
           Multi.gen_resume h st = (st', Returns [Multi.update_event]) /\
           pending h st' = n /\
           Multi._latest_images st' = Multi._latest_images st
     end) /\
  (forall st,
     queues_fresh st ->
     pending (Multi.next_qid st) (fst (Multi.gen_start st)) = 0%nat /\
     Multi.gen_resume (Multi.next_qid st) (fst (Multi.gen_start st))
       = (fst (Multi.gen_start st), Returns [])) /\
  queues_fresh Multi.initial /\
  (forall fetch o st,
     queues_fresh st -> queues_fresh (Multi.run_op fetch o st)).
Proof.
  split.
  { intros st. split; reflexivity. }
  split.
  { intros fetch p cam obj now st st' H.
    destruct (store_image_for_topic_cases fetch p cam obj now st)
      as [[img H'] | [o [H' Ho]]]; rewrite H' in H.
    2:{ injection H as _ ->. congruence. }
    injection H as <-. split; [reflexivity | ].
    intros h q Hq. unfold pending, stored; simpl.
    rewrite find_queue_put, Hq. simpl. split; [reflexivity | ].
    rewrite length_app. simpl. lia. }
  split; [exact gen_resume_pending | ].
  split.
  { intros st Hf.
    assert (Hp : pending (Multi.next_qid st) (fst (Multi.gen_start st)) = 0%nat).
    { unfold pending, Multi.gen_start. run_monad. simpl.
      rewrite find_queue_fresh with (q := {| Multi.qid := Multi.next_qid st;
                                             Multi.items := [] |});
        [reflexivity | exact Hf | reflexivity]. }
    split; [exact Hp | ].
    pose proof (gen_resume_pending (fst (Multi.gen_start st))
                  (Multi.next_qid st)) as H.
    rewrite Hp in H. exact H. }
  split; [constructor | exact run_op_fresh].
Qed.

Lemma sse_notification_witness :
  (Multi._sse_clients
     (stored (fst (Multi.gen_start Multi.initial))
        (lit "cam1", lit "person") (PBytes jpeg_marker) 3)
   = map Multi.put_nowait
       (Multi._sse_clients (fst (Multi.gen_start Multi.initial))) /\
   forall h q,
     find_queue h (Multi._sse_clients (fst (Multi.gen_start Multi.initial)))
       = Some q ->
     find_queue h
       (Multi._sse_clients
          (stored (fst (Multi.gen_start Multi.initial))
             (lit "cam1", lit "person") (PBytes jpeg_marker) 3))
       = Some {| Multi.qid := Multi.qid q;
                 Multi.items := Multi.items q ++ [true] |} /\
     pending h
       (stored (fst (Multi.gen_start Multi.initial))
          (lit "cam1", lit "person") (PBytes jpeg_marker) 3)
     = S (pending h (fst (Multi.gen_start Multi.initial)))) /\
  (pending (Multi.next_qid Multi.initial)
     (fst (Multi.gen_start Multi.initial)) = 0%nat /\
   Multi.gen_resume (Multi.next_qid Multi.initial)
     (fst (Multi.gen_start Multi.initial))
   = (fst (Multi.gen_start Multi.initial), Returns [])) /\
  queues_fresh
    (Multi.run_op Multi.module_globals Multi.EventsOpen Multi.initial).
Proof.
  split; [ | split].
  - apply (proj1 (proj2 sse_notification) Multi.module_globals
             (PBytes jpeg_marker) (lit "cam1") (lit "person") 3
             (fst (Multi.gen_start Multi.initial))).
    reflexivity.
  - apply (proj1 (proj2 (proj2 (proj2 sse_notification))) Multi.initial).
    constructor.
  - apply (proj2 (proj2 (proj2 (proj2 (proj2 sse_notification))))).
    constructor.
Defined.

(** ** Payload classification *)

Lemma bytes_eqb_eq : forall a b, bytes_eqb a b = true <-> a = b.
Proof.
  intros a b. unfold bytes_eqb.
  destruct (list_eq_dec Byte.byte_eq_dec a b); split; congruence.
Qed.

Lemma byte_of_not_ff : forall n, n <> 255%N -> byte_of n <> xff.
Proof.
  intros n Hn. unfold byte_of.
  destruct (Byte.of_N n) as [b | ] eqn:E; [ | discriminate].
  apply Byte.to_of_N in E. intros ->. apply Hn. now rewrite <- E.
Qed.

Lemma Returns_inj : forall (A : Type) (a b : A), Returns a = Returns b -> a = b.
Proof.
  intros A a b H. now injection H.
Qed.

(** UTF-8 never produces the byte [FF] in first position. *)
Lemma utf8_encode_cp_head :
  forall c h,
    utf8_encode_cp c = Returns h ->
    exists b t, h = b :: t /\ b <> xff.
Proof.
  intros c h. unfold utf8_encode_cp.
  destruct (N.ltb_spec c 128).
  { intros E. apply Returns_inj in E. subst h.
    do 2 eexists; split; [reflexivity | ].
    apply byte_of_not_ff. lia. }
  destruct (N.ltb_spec c 2048).
  { intros E. apply Returns_inj in E. subst h.
    do 2 eexists; split; [reflexivity | ].
    apply byte_of_not_ff.
    assert (c / 64 < 32)%N by (apply N.Div0.div_lt_upper_bound; lia). lia. }
  destruct ((55296 <=? c)%N && (c <=? 57343)%N); [discriminate | ].
  destruct (N.ltb_spec c 65536).
  { intros E. apply Returns_inj in E. subst h.
    do 2 eexists; split; [reflexivity | ].
    apply byte_of_not_ff.
    assert (c / 4096 < 16)%N by (apply N.Div0.div_lt_upper_bound; lia). lia. }
  destruct (N.ltb_spec c 1114112); [ | discriminate].
  intros E. apply Returns_inj in E. subst h.
  do 2 eexists; split; [reflexivity | ].
  apply byte_of_not_ff.
  assert (c / 262144 < 5)%N by (apply N.Div0.div_lt_upper_bound; lia). lia.
Qed.

Lemma utf8_encode_no_marker :
  forall s e,
    utf8_encode s = Returns e -> bytes_eqb (firstn 3 e) jpeg_marker = false.
Proof.
  intros s e H.
  destruct (bytes_eqb (firstn 3 e) jpeg_marker) eqn:E; [ | reflexivity].
  apply bytes_eqb_eq in E. exfalso.
  destruct s as [| c r]; simpl in H.
  - injection H as <-. discriminate E.
  - destruct (utf8_encode_cp c) as [h | x] eqn:Hc; [ | discriminate].
    destruct (utf8_encode r) as [t | x]; [ | discriminate].
    injection H as <-.
    destruct (utf8_encode_cp_head c _ Hc) as (b & t' & -> & Hb).
    simpl in E. injection E as E _. now apply Hb.
Qed.

(** [classify] computes [classified_as]. *)
Lemma classify_spec :
  forall p img, classify p = Some img <-> classified_as p img.
Proof.
  intros p img. unfold classify, classified_as, starts_with_marker.
  destruct (payload_bytes p) as [b | ].
  2:{ split; [discriminate | intros (b & H & _); discriminate]. }
  destruct (bytes_eqb (firstn 3 b) jpeg_marker) eqn:E.
  { apply bytes_eqb_eq in E. split.
    - intros [= <-]. exists b. split; [reflexivity | ]. left. now split.
    - intros (b' & [= <-] & [[_ ->] | [Hn _]]); [reflexivity | contradiction]. }
  assert (Hn : firstn 3 b <> jpeg_marker).
  { intros H. apply bytes_eqb_eq in H. congruence. }
  destruct (b64decode_validate b) as [d | e] eqn:Hd.
  2:{ split; [discriminate | ].
      intros (b' & [= <-] & [[H _] | (_ & H & _)]);
        [contradiction | congruence]. }
  destruct (bytes_eqb (firstn 3 d) jpeg_marker) eqn:E'.
  - apply bytes_eqb_eq in E'. split.
    + intros [= <-]. exists b. split; [reflexivity | ]. right. now repeat split.
    + intros (b' & [= <-] & [[H _] | (_ & H & _)]);
        [contradiction | congruence].
  - split; [discriminate | ].
    intros (b' & [= <-] & [[H _] | (_ & H & Hm)]); [contradiction | ].
    rewrite Hd in H. injection H as ->.
    apply bytes_eqb_eq in Hm. congruence.
Qed.

(** The single-topic store operation is the classifier followed by one
    write. *)
Lemma single_store_classify :
  forall p now st,
    Single.store_image_if_jpeg p now st
    = match classify p with
      | Some img =>
          ({| Single._last_image := PBytes img;
              Single._last_image_ts := now |}, Returns true)
      | None => (st, Returns false)
      end.
Proof.
  intros p now st. unfold Single.store_image_if_jpeg, classify.
  destruct p as [b | s | ]; cbn [payload_bytes].
  - destruct b as [| x b']; [reflexivity | ].
    cbn [truthy negb]. run_monad.
    destruct (bytes_eqb (firstn 3 (x :: b')) jpeg_marker); [reflexivity | ].
    destruct (b64decode_validate (x :: b')) as [d | e]; run_monad;
      [ | reflexivity].
    destruct (bytes_eqb (firstn 3 d) jpeg_marker); reflexivity.
  - destruct s as [| c r]; [reflexivity | ].
    cbn [truthy negb]. run_monad.
    destruct (utf8_encode (c :: r)) as [e | x] eqn:He; run_monad;
      [ | reflexivity].
    rewrite (utf8_encode_no_marker _ _ He).
    destruct (b64decode_validate e) as [d | e']; run_monad; [ | reflexivity].
    destruct (bytes_eqb (firstn 3 d) jpeg_marker); reflexivity.
  - reflexivity.
Qed.

(** So are the raw and base64 checks of the multi-topic variant, with
    the write followed by the broadcast. *)
Lemma raw_or_base64_classify :
  forall p cam obj now st,
    p <> PNone ->
    Multi.store_raw_or_base64 p cam obj now st
    = match classify p with
      | Some img => (stored st (cam, obj) (PBytes img) now, Returns true)
      | None => (st, Returns false)
      end.
Proof.
  intros p cam obj now st Hp.
  unfold Multi.store_raw_or_base64, classify.
  destruct p as [b | s | ]; cbn [payload_bytes]; [ | | congruence].
  - run_monad.
    destruct (bytes_eqb (firstn 3 b) jpeg_marker); [reflexivity | ].
    destruct (b64decode_validate b) as [d | e]; run_monad; [ | reflexivity].
    destruct (bytes_eqb (firstn 3 d) jpeg_marker); reflexivity.
  - run_monad.
    destruct (utf8_encode s) as [e | x] eqn:He; run_monad; [ | reflexivity].
    rewrite (utf8_encode_no_marker _ _ He).
    destruct (b64decode_validate e) as [d | e']; run_monad; [ | reflexivity].
    destruct (bytes_eqb (firstn 3 d) jpeg_marker); reflexivity.
Qed.

(** An empty payload is no image. *)
Lemma classify_falsy :
  forall p, truthy p = false -> classify p = None.
Proof.
  intros [[| x b] | [| c r] | ] H; try discriminate H; reflexivity.
Qed.

(** Hence the whole multi-topic store operation is the classifier on
    payloads that are not URL-shaped. *)
Lemma multi_store_classify :
  forall fetch p cam obj now st,
    Multi.url_shaped (Multi.payload_as_str p) = false ->
    Multi.store_image_for_topic fetch p cam obj now st
    = match classify p with
      | Some img => (stored st (cam, obj) (PBytes img) now, Returns true)
      | None => (st, Returns false)
      end.
Proof.
  intros fetch p cam obj now st Hu.
  unfold Multi.store_image_for_topic. rewrite Hu.
  destruct (truthy p) eqn:Ht; cbn [negb].
  - apply raw_or_base64_classify. intros ->. discriminate Ht.
  - now rewrite (classify_falsy p Ht).
Qed.

(** *** URL-shaped payloads are never images

    A payload the multi-topic variant takes for a URL starts, after
    optional white space, with the letter [h] or [H]; strict base64
    decodes to bytes starting with [FF] only from text that starts
    with ["/"].  So the URL test never takes a payload away from the
    classifier. *)

Lemma Some_inj : forall (A : Type) (a b : A), Some a = Some b -> a = b.
Proof.
  intros A a b H. now injection H.
Qed.

Lemma to_N_byte_of :
  forall n m, Byte.to_N (byte_of n) = m -> m <> 0%N -> n = m.
Proof.
  intros n m H Hm. unfold byte_of in H.
  destruct (Byte.of_N n) as [b | ] eqn:E.
  - apply Byte.to_of_N in E. congruence.
  - simpl in H. congruence.
Qed.

Lemma table_a2b_base64_bound :
  forall b v, table_a2b_base64 b = Some v -> (v < 64)%N.
Proof.
  intros b v. unfold table_a2b_base64.
  set (n := Byte.to_N b).
  destruct ((65 <=? n)%N && (n <=? 90)%N) eqn:E1.
  { apply andb_true_iff in E1. rewrite !N.leb_le in E1.
    intros [= <-]. lia. }
  destruct ((97 <=? n)%N && (n <=? 122)%N) eqn:E2.
  { apply andb_true_iff in E2. rewrite !N.leb_le in E2.
    intros [= <-]. lia. }
  destruct ((48 <=? n)%N && (n <=? 57)%N) eqn:E3.
  { apply andb_true_iff in E3. rewrite !N.leb_le in E3.
    intros [= <-]. lia. }
  destruct (n =? 43)%N; [intros [= <-]; lia | ].
  destruct (n =? 47)%N; [intros [= <-]; lia | discriminate].
Qed.

(** Only ["/"] has the value 63. *)
Lemma table_a2b_base64_slash :
  forall b, table_a2b_base64 b = Some 63%N -> Byte.to_N b = 47%N.
Proof.
  intros b. unfold table_a2b_base64.
  set (n := Byte.to_N b).
  destruct ((65 <=? n)%N && (n <=? 90)%N) eqn:E1.
  { apply andb_true_iff in E1. rewrite !N.leb_le in E1.
    intros H. apply Some_inj in H. lia. }
  destruct ((97 <=? n)%N && (n <=? 122)%N) eqn:E2.
  { apply andb_true_iff in E2. rewrite !N.leb_le in E2.
    intros H. apply Some_inj in H. lia. }
  destruct ((48 <=? n)%N && (n <=? 57)%N) eqn:E3.
  { apply andb_true_iff in E3. rewrite !N.leb_le in E3.
    intros H. apply Some_inj in H. lia. }
  destruct (n =? 43)%N; [discriminate | ].
  destruct (n =? 47)%N eqn:E5; [ | discriminate].
  intros _. now apply N.eqb_eq in E5.
Qed.

(** Once padding has started on the second character of a quad the
    decoder cannot succeed. *)
Lemma a2b_loop_padding_stuck :
  forall data leftchar pads out,
    exists e, a2b_loop data 1 leftchar pads true out = Raises e.
Proof.
  induction data as [| c rest IH]; intros leftchar pads out.
  - now eexists.
  - cbn [a2b_loop].
    destruct (Byte.eqb c BASE64_PAD).
    + change ((2 <=? 1)%N) with false. cbn [andb]. apply IH.
    + destruct (table_a2b_base64 c); now eexists.
Qed.

(** The decoder only ever appends to its output. *)
Lemma a2b_loop_prefix :
  forall data quad_pos leftchar pads started out d,
    a2b_loop data quad_pos leftchar pads started out = Returns d ->
    exists t, d = rev out ++ t.
Proof.
  induction data as [| c rest IH];
    intros quad_pos leftchar pads started out d H; cbn [a2b_loop] in H.
  - destruct (quad_pos =? 0)%N; [ | discriminate].
    apply Returns_inj in H. subst d. exists []. now rewrite app_nil_r.
  - destruct (Byte.eqb c BASE64_PAD).
    + destruct ((2 <=? quad_pos)%N && (4 <=? quad_pos + (pads + 1))%N).
      * destruct rest; [ | discriminate].
        apply Returns_inj in H. subst d. exists []. now rewrite app_nil_r.
      * now apply IH in H.
    + destruct (table_a2b_base64 c) as [v | ]; [ | discriminate].
      destruct started; [discriminate | ].
      destruct (quad_pos =? 0)%N; [now apply IH in H | ].
      destruct (quad_pos =? 1)%N;
        [ | destruct (quad_pos =? 2)%N ];
        apply IH in H; destruct H as [t ->]; cbn [rev];
        rewrite <- app_assoc; now eexists.
Qed.

(** The first decoded byte is [FF] only when the first character has
    the value 63. *)
Lemma first_byte_not_ff :
  forall v0 v1,
    (v0 < 63)%N -> (v1 < 64)%N ->
    N.lor (N.shiftl v0 2) (N.shiftr v1 4) <> 255%N.
Proof.
  intros v0 v1 H0 H1.
  assert (Hall :
    forallb (fun a =>
      forallb (fun b =>
        negb (N.eqb (N.lor (N.shiftl (N.of_nat a) 2)
                       (N.shiftr (N.of_nat b) 4)) 255))
        (seq 0 64)) (seq 0 63) = true) by (vm_compute; reflexivity).
  rewrite forallb_forall in Hall.
  specialize (Hall (N.to_nat v0)).
  rewrite in_seq in Hall. specialize (Hall ltac:(lia)).
  rewrite forallb_forall in Hall.
  specialize (Hall (N.to_nat v1)).
  rewrite in_seq in Hall. specialize (Hall ltac:(lia)).
  rewrite !N2Nat.id in Hall.
  apply negb_true_iff, N.eqb_neq in Hall. exact Hall.
Qed.

(** Strict base64 that does not start with ["/"] does not decode to a
    JPEG. *)
Lemma b64decode_needs_slash :
  forall b0 rest,
    Byte.to_N b0 <> 47%N ->
    match b64decode_validate (b0 :: rest) with
    | Returns d => bytes_eqb (firstn 3 d) jpeg_marker = false
    | Raises _ => True
    end.
Proof.
  intros b0 rest Hb. unfold b64decode_validate.
  destruct (Byte.eqb b0 BASE64_PAD) eqn:Epad; [exact I | ].
  cbn [a2b_loop]. rewrite Epad.
  destruct (table_a2b_base64 b0) as [v0 | ] eqn:E0; [ | exact I].
  change ((0 =? 0)%N) with true. cbv beta iota.
  assert (Hv0 : (v0 < 63)%N).
  { pose proof (table_a2b_base64_bound b0 v0 E0).
    assert (v0 <> 63%N); [ | lia].
    intros ->. now apply table_a2b_base64_slash in E0. }
  destruct rest as [| b1 r1]; [exact I | ].
  cbn [a2b_loop].
  destruct (Byte.eqb b1 BASE64_PAD).
  { change ((2 <=? 1)%N) with false. cbn [andb].
    destruct (a2b_loop_padding_stuck r1 v0 0 []) as [e ->]. exact I. }
  destruct (table_a2b_base64 b1) as [v1 | ] eqn:E1; [ | exact I].
  change ((1 =? 0)%N) with false. change ((1 =? 1)%N) with true.
  cbv beta iota.
  destruct (a2b_loop r1 2 (N.land v1 15) 0 false _) as [d | e] eqn:Hd;
    [ | exact I].
  apply a2b_loop_prefix in Hd. destruct Hd as [t ->].
  destruct (bytes_eqb _ jpeg_marker) eqn:Em; [ | reflexivity].
  apply bytes_eqb_eq in Em. cbn [rev app firstn] in Em.
  unfold jpeg_marker in Em.
  exfalso.
  assert (Hff : byte_of (N.lor (N.shiftl v0 2) (N.shiftr v1 4)) = xff)
    by congruence.
  revert Hff. apply byte_of_not_ff.
  apply first_byte_not_ff; [exact Hv0 | ].
  exact (table_a2b_base64_bound b1 v1 E1).
Qed.

Lemma lstrip_suffix : forall s, exists pre, s = pre ++ lstrip s.
Proof.
  induction s as [| c r [pre IH]]; [now exists [] | ].
  cbn [lstrip]. destruct (isspace c).
  - exists (c :: pre). cbn. now rewrite <- IH.
  - now exists [].
Qed.

(** [strip] keeps a prefix of what [lstrip] keeps. *)
Lemma strip_prefix : forall s, exists suf, lstrip s = strip s ++ suf.
Proof.
  intros s. unfold strip.
  destruct (lstrip_suffix (rev (lstrip s))) as [pre H].
  exists (rev pre).
  rewrite <- rev_app_distr, <- H. now rewrite rev_involutive.
Qed.

Lemma lower_startswith_http_head :
  forall t,
    lower_startswith_http t = true ->
    exists c r, t = c :: r /\ (c = 104%N \/ c = 72%N).
Proof.
  intros [| c0 [| c1 [| c2 [| c3 r]]]] H; try discriminate H.
  cbn in H. rewrite !andb_true_iff in H. destruct H as [[[H _] _] _].
  exists c0, (c1 :: c2 :: c3 :: r). split; [reflexivity | ].
  unfold lower_is in H. apply orb_true_iff in H.
  rewrite !N.eqb_eq in H. cbn in H. exact H.
Qed.

(** The first code point of a URL-shaped text is white space or the
    letter [h] in either case. *)
Lemma url_shaped_head :
  forall s,
    Multi.url_shaped (Some s) = true ->
    exists c r, s = c :: r /\ (isspace c = true \/ c = 104%N \/ c = 72%N).
Proof.
  intros s H. cbn in H. apply andb_true_iff in H. destruct H as [_ H].
  apply lower_startswith_http_head in H.
  destruct H as (c & r & Hs & Hc).
  destruct (strip_prefix s) as [suf Hl]. rewrite Hs in Hl.
  destruct s as [| c0 r0]; [discriminate Hl | ].
  exists c0, r0. split; [reflexivity | ].
  cbn [lstrip] in Hl.
  destruct (isspace c0); [now left | ].
  right. cbn in Hl. congruence.
Qed.

(** White space below 128 is neither ["/"] nor a high byte. *)
Lemma space_or_h_not_slash :
  forall c,
    isspace c = true \/ c = 104%N \/ c = 72%N -> c <> 47%N /\ c <> 255%N.
Proof.
  intros c [H | [-> | ->]]; [ | split; discriminate | split; discriminate].
  split; intros ->; discriminate H.
Qed.

Lemma cons_cp_inv :
  forall c r c0 s, cons_cp c r = Returns (c0 :: s) -> c0 = c.
Proof.
  intros c [s' | e] c0 s H; cbn in H; congruence.
Qed.

(** The first byte of UTF-8 text is its first code point when that is
    below 128, and a lead byte from [C2] to [F4] otherwise. *)
Lemma utf8_decode_head :
  forall bs c0 s,
    utf8_decode bs = Returns (c0 :: s) ->
    exists b0 rest,
      bs = b0 :: rest /\
      ((Byte.to_N b0 < 128)%N /\ c0 = Byte.to_N b0 \/
       (194 <= Byte.to_N b0 <= 244)%N).
Proof.
  intros [| b0 r0] c0 s H; [discriminate H | ].
  exists b0, r0. split; [reflexivity | ].
  cbn [utf8_decode] in H. cbv zeta in H.
  destruct (N.ltb_spec (Byte.to_N b0) 128).
  { left. split; [assumption | ]. now apply cons_cp_inv in H. }
  right.
  destruct ((194 <=? Byte.to_N b0)%N && (Byte.to_N b0 <=? 223)%N) eqn:E1.
  { apply andb_true_iff in E1. rewrite !N.leb_le in E1. lia. }
  destruct ((224 <=? Byte.to_N b0)%N && (Byte.to_N b0 <=? 239)%N) eqn:E2.
  { apply andb_true_iff in E2. rewrite !N.leb_le in E2. lia. }
  destruct ((240 <=? Byte.to_N b0)%N && (Byte.to_N b0 <=? 244)%N) eqn:E3.
  { apply andb_true_iff in E3. rewrite !N.leb_le in E3. lia. }
  discriminate H.
Qed.

Lemma utf8_encode_cp_first :
  forall c h,
    utf8_encode_cp c = Returns h ->
    exists b t,
      h = b :: t /\
      ((c < 128)%N /\ b = byte_of c \/
       (128 <= c)%N /\ Byte.to_N b <> 47%N).
Proof.
  intros c h. unfold utf8_encode_cp.
  destruct (N.ltb_spec c 128).
  { intros E. apply Returns_inj in E. subst h.
    do 2 eexists; split; [reflexivity | ]. left. now split. }
  assert (Hhigh : forall n, (192 <= n)%N -> Byte.to_N (byte_of n) <> 47%N).
  { intros n Hn E. apply to_N_byte_of in E; lia. }
  destruct (N.ltb_spec c 2048).
  { intros E. apply Returns_inj in E. subst h.
    do 2 eexists; split; [reflexivity | ]. right.
    split; [assumption | ].
    apply Hhigh. eapply N.le_trans; [ | apply N.le_add_r]. lia. }
  destruct ((55296 <=? c)%N && (c <=? 57343)%N); [discriminate | ].
  destruct (N.ltb_spec c 65536).
  { intros E. apply Returns_inj in E. subst h.
    do 2 eexists; split; [reflexivity | ]. right.
    split; [assumption | ].
    apply Hhigh. eapply N.le_trans; [ | apply N.le_add_r]. lia. }
  destruct (N.ltb_spec c 1114112); [ | discriminate].
  intros E. apply Returns_inj in E. subst h.
  do 2 eexists; split; [reflexivity | ]. right.
  split; [assumption | ].
    apply Hhigh. eapply N.le_trans; [ | apply N.le_add_r]. lia.
Qed.

(** The bytes of a URL-shaped payload start with a byte that is
    neither [FF] nor ["/"]. *)
Lemma url_shaped_first_byte :
  forall p bs,
    Multi.url_shaped (Multi.payload_as_str p) = true ->
    payload_bytes p = Some bs ->
    exists b0 rest,
      bs = b0 :: rest /\ Byte.to_N b0 <> 47%N /\ Byte.to_N b0 <> 255%N.
Proof.
  intros [b | s | ] bs Hu Hb; cbn in Hb; [ | | discriminate Hb].
  - apply Some_inj in Hb. subst bs.
    unfold Multi.payload_as_str in Hu.
    destruct (utf8_decode b) as [s | e] eqn:Hd; [ | discriminate Hu].
    apply url_shaped_head in Hu. destruct Hu as (c & r & -> & Hc).
    apply utf8_decode_head in Hd.
    destruct Hd as (b0 & rest & -> & [[Hlt ->] | Hhi]).
    + exists b0, rest. split; [reflexivity | ].
      now apply space_or_h_not_slash.
    + exists b0, rest. split; [reflexivity | lia].
  - unfold Multi.payload_as_str in Hu.
    apply url_shaped_head in Hu. destruct Hu as (c & r & -> & Hc).
    cbn [utf8_encode] in Hb.
    destruct (utf8_encode_cp c) as [h | x] eqn:Hcp; [ | discriminate Hb].
    destruct (utf8_encode r) as [t | x]; [ | discriminate Hb].
    apply Some_inj in Hb. subst bs.
    destruct (utf8_encode_cp_head c h Hcp) as (b1 & t1 & Hh & Hff).
    destruct (utf8_encode_cp_first c h Hcp)
      as (b0 & t0 & -> & [[Hlt ->] | [Hge Hns]]).
    + exists (byte_of c), (t0 ++ t). split; [reflexivity | ].
      destruct (space_or_h_not_slash c Hc) as [H47 H255].
      split; intros E; apply to_N_byte_of in E; congruence.
    + exists b0, (t0 ++ t). split; [reflexivity | ].
      split; [exact Hns | ].
      intros E. apply Hff.
      pose proof (Byte.of_to_N b0) as Hof. rewrite E in Hof.
      vm_compute in Hof. congruence.
Qed.

(** No URL-shaped payload is an image. *)
Lemma url_shaped_not_classified :
  forall p,
    Multi.url_shaped (Multi.payload_as_str p) = true -> classify p = None.
Proof.
  intros p Hu. unfold classify.
  destruct (payload_bytes p) as [bs | ] eqn:Hb; [ | reflexivity].
  destruct (url_shaped_first_byte p bs Hu Hb) as (b0 & rest & -> & H47 & Hff).
  destruct (bytes_eqb (firstn 3 (b0 :: rest)) jpeg_marker) eqn:E.
  { apply bytes_eqb_eq in E. exfalso. apply Hff.
    destruct rest as [| b1 [| b2 r]]; cbn in E; try discriminate E.
    injection E as -> _ _. reflexivity. }
  pose proof (b64decode_needs_slash b0 rest H47) as H.
  destruct (b64decode_validate (b0 :: rest)) as [d | e]; [ | reflexivity].
  now rewrite H.
Qed.



(** *** The decoder against RFC 4648

    [base64.b64decode(b, validate=True)] accepts every valid base64
    text and decodes it as RFC 4648 says.  It also accepts pads after
    a text that ends on a full group of four: [/9j/=] decodes like
    [/9j/]. *)

(** A check of a property of two six-bit values over all of them. *)
Lemma sextets_forall :
  forall P : N -> N -> bool,
    forallb (fun a => forallb (fun b => P (N.of_nat a) (N.of_nat b))
                        (seq 0 64)) (seq 0 64) = true ->
    forall a b, (a < 64)%N -> (b < 64)%N -> P a b = true.
Proof.
  intros P H a b Ha Hb.
  rewrite forallb_forall in H. specialize (H (N.to_nat a)).
  rewrite in_seq in H. specialize (H ltac:(lia)).
  rewrite forallb_forall in H. specialize (H (N.to_nat b)).
  rewrite in_seq in H. specialize (H ltac:(lia)).
  now rewrite !N2Nat.id in H.
Qed.































(** Outside the URL branch the message handlers do return. *)
Lemma single_on_message_returns :
  forall topic_pattern matcher msg now st,
    Single.payload_of msg <> PNone ->
    exists st',
      Single.on_message topic_pattern matcher msg now st = (st', Returns tt).
Proof.
  intros pat matcher [t p] now st Hp. cbn in Hp.
  unfold Single.on_message, Single.topic, Single.payload_of. run_monad.
  destruct p as [b | s | ]; [ | | congruence]; cbn [len]; run_monad.
  - destruct (matcher pat t) as [[ | ] | e]; run_monad;
      try destruct (str_eqb t pat);
      try rewrite single_store_classify;
      try destruct (classify (PBytes b)); now eexists.
  - destruct (matcher pat t) as [[ | ] | e]; run_monad;
      try destruct (str_eqb t pat);
      try rewrite single_store_classify;
      try destruct (classify (PStr s)); now eexists.
Qed.

Lemma multi_on_message_returns :
  forall fetch msg now st,
    Multi.payload_of msg <> PNone ->
    Multi.url_shaped (Multi.payload_as_str (Multi.payload_of msg)) = false ->
    exists st',
      Multi.on_message fetch msg now st = (st', Returns tt).
Proof.
  intros fetch [t p] now st Hp Hu. cbn in Hp, Hu.
  unfold Multi.on_message, Multi.topic, Multi.payload_of. run_monad.
  destruct (len p) as [n | e] eqn:Hl.
  2:{ destruct p; cbn in Hl; congruence. }
  run_monad.
  destruct (Multi.route t) as [[cam obj] | ]; run_monad; [ | now eexists].
  rewrite (multi_store_classify fetch p cam obj now st Hu).
  destruct (classify p); now eexists.
Qed.

(** The end-to-end scenarios on classification, run. *)
Example raw_jpeg_is_stored :
  Single.store_image_if_jpeg (PBytes (jpeg_marker ++ [x00; x10]%byte)) 7
    Single.initial
  = ({| Single._last_image := PBytes (jpeg_marker ++ [x00; x10]%byte);
        Single._last_image_ts := 7 |}, Returns true).
Proof. reflexivity. Qed.

Example base64_jpeg_is_stored_decoded :
  Multi.store_image_for_topic Multi.module_globals base64_jpeg
    (lit "cam1") (lit "person") 7 Multi.initial
  = (stored Multi.initial (lit "cam1", lit "person")
       (PBytes [xff; xd8; xff; xe0]%byte) 7, Returns true).
Proof. reflexivity. Qed.

(** ** Image queries *)

Lemma classified_marker :
  forall p img, classified_as p img -> starts_with_marker img.
Proof.
  intros p img (b & _ & [[H ->] | (_ & _ & H)]); exact H.
Qed.

(** The single slot holds nothing or bytes that start with the
    marker. *)
Lemma single_reachable_image :
  forall st,
    single_reachable st ->
    Single._last_image st = PNone \/
    (exists b, Single._last_image st = PBytes b /\ starts_with_marker b).
Proof.
  intros st H. induction H as [| st p now _ IH].
  - now left.
  - rewrite single_store_classify.
    destruct (classify p) as [img | ] eqn:E; [ | exact IH].
    right. exists img. split; [reflexivity | ].
    apply classify_spec in E. now apply classified_marker in E.
Qed.

(** The message handler reaches nothing the store operation does
    not. *)
Lemma single_on_message_reachable :
  forall topic_pattern matcher msg now st,
    single_reachable st ->
    single_reachable
      (fst (Single.on_message topic_pattern matcher msg now st)).
Proof.
  intros pat matcher [t p] now st H.
  unfold Single.on_message, Single.topic, Single.payload_of. run_monad.
  destruct (len p) as [n | e]; run_monad; [ | exact H].
  assert (Hs : single_reachable (fst (Single.store_image_if_jpeg p now st)))
    by now constructor.
  destruct (matcher pat t) as [[ | ] | e]; run_monad.
  - destruct (Single.store_image_if_jpeg p now st) as [s' [r | x]]; exact Hs.
  - exact H.
  - destruct (str_eqb t pat); [ | exact H].
    destruct (Single.store_image_if_jpeg p now st) as [s' [r | x]]; exact Hs.
Qed.

(** C9. An image query for a key without a record answers 204 with an
    empty body; for a key with a record it answers 200 with exactly
    the stored bytes, the header
    [Cache-Control: no-cache, no-store, must-revalidate] and the
    record's timestamp in [X-Image-Timestamp].  The query leaves the
    state as it found it.  This holds for the keyed table of the
    multi-topic variant and, in every reachable state, for the single
    slot of the single-topic variant. *)
Theorem image_query :
  (forall cam obj st,
     Multi.dict_get (Multi._latest_images st) (cam, obj) = None ->
     Multi.image cam obj st = (st, Returns no_content)) /\
  (forall cam obj st img ts,
     Multi.dict_get (Multi._latest_images st) (cam, obj) = Some (img, ts) ->
     Multi.image cam obj st = (st, Returns (jpeg_response img ts))) /\
  (forall st,
     single_reachable st ->
     Single._last_image st = PNone ->
     Single.image st = (st, Returns no_content)) /\
  (forall st img,
     single_reachable st ->
     Single._last_image st = img ->
     img <> PNone ->
     Single.image st
     = (st, Returns (jpeg_response img (Single._last_image_ts st)))) /\
  (status no_content = 204%nat /\ body no_content = PBytes []) /\
  (forall img ts,
     status (jpeg_response img ts) = 200%nat /\
     body (jpeg_response img ts) = img /\
     In ("Cache-Control"%string,
         HText "no-cache, no-store, must-revalidate")
       (headers (jpeg_response img ts)) /\
     In ("X-Image-Timestamp"%string, HTimestamp ts)
       (headers (jpeg_response img ts))).
Proof.
  split.
  { intros cam obj st H. unfold Multi.image. run_monad. now rewrite H. }
  split.
  { intros cam obj st img ts H. unfold Multi.image. run_monad.
    now rewrite H. }
  split.
  { intros st _ H. unfold Single.image. run_monad. now rewrite H. }
  split.
  { intros st img Hr Hi Hn. unfold Single.image. run_monad.
    destruct (single_reachable_image st Hr) as [H | (b & H & Hm)].
    - congruence.
    - rewrite <- Hi, H.
      destruct b as [| x b']; [discriminate Hm | reflexivity]. }
  split; [split; reflexivity | ].
  intros img ts. repeat split; simpl; auto.
Qed.

Lemma image_query_witness :
  Multi.image (lit "cam1") (lit "person") Multi.initial
    = (Multi.initial, Returns no_content) /\
  Multi.image (lit "cam1") (lit "person")
    (stored Multi.initial (lit "cam1", lit "person") (PBytes jpeg_marker) 7)
    = (stored Multi.initial (lit "cam1", lit "person") (PBytes jpeg_marker) 7,
       Returns (jpeg_response (PBytes jpeg_marker) 7)) /\
  Single.image Single.initial = (Single.initial, Returns no_content) /\
  Single.image
    (fst (Single.store_image_if_jpeg (PBytes jpeg_marker) 7 Single.initial))
    = (fst (Single.store_image_if_jpeg (PBytes jpeg_marker) 7 Single.initial),
       Returns (jpeg_response (PBytes jpeg_marker)
                  (Single._last_image_ts
                     (fst (Single.store_image_if_jpeg (PBytes jpeg_marker) 7
                             Single.initial))))).
Proof.
  split; [ | split; [ | split]].
  - apply (proj1 image_query). reflexivity.
  - apply (proj1 (proj2 image_query)). reflexivity.
  - apply (proj1 (proj2 (proj2 image_query))).
    + constructor.
    + reflexivity.
  - apply (proj1 (proj2 (proj2 (proj2 image_query)))).
    + constructor. constructor.
    + reflexivity.
    + discriminate.
Defined.

(** ** The gallery and its latest entry *)

Lemma float_gt_int_true :
  forall ts n, Multi.float_gt_int ts n = true -> (n <= Multi.py_int ts)%Z.
Proof.
  intros [a b] n. unfold Multi.float_gt_int, Multi.py_int.
  destruct (Qlt_le_dec (inject_Z n) (a # b)) as [H | H]; [ | discriminate].
  intros _. unfold Qlt in H. cbn [Qnum Qden inject_Z] in *.
  pose proof (Z.quot_rem' a (Zpos b)) as Hq.
  destruct (Z.le_gt_cases 0 a) as [Ha | Ha].
  - pose proof (Z.rem_bound_pos a (Zpos b) Ha ltac:(lia)). nia.
  - pose proof (Z.rem_nonpos a (Zpos b) ltac:(lia) ltac:(lia)).
    pose proof (Z.rem_bound_abs a (Zpos b) ltac:(lia)). nia.
Qed.

Lemma float_gt_int_false :
  forall ts n, Multi.float_gt_int ts n = false -> (Multi.py_int ts <= n)%Z.
Proof.
  intros [a b] n. unfold Multi.float_gt_int, Multi.py_int.
  destruct (Qlt_le_dec (inject_Z n) (a # b)) as [H | H]; [discriminate | ].
  intros _. unfold Qle in H. cbn [Qnum Qden inject_Z] in *.
  pose proof (Z.quot_rem' a (Zpos b)) as Hq.
  destruct (Z.le_gt_cases 0 a) as [Ha | Ha].
  - pose proof (Z.rem_bound_pos a (Zpos b) Ha ltac:(lia)). nia.
  - pose proof (Z.rem_nonpos a (Zpos b) ltac:(lia) ltac:(lia)).
    pose proof (Z.rem_bound_abs a (Zpos b) ltac:(lia)). nia.
Qed.

(** What the loop of [gallery] keeps in [latest]: an entry of the
    table whose whole-second timestamp is the greatest of all. *)
Lemma gallery_fold_latest :
  forall l acc,
    match snd (fold_left Multi.gallery_step l acc) with
    | None => snd acc = None /\ l = []
    | Some e =>
        (forall k img ts,
           In (k, (img, ts)) l -> (Multi.py_int ts <= Multi.entry_ts e)%Z) /\
        (forall e0, snd acc = Some e0 ->
                    (Multi.entry_ts e0 <= Multi.entry_ts e)%Z) /\
        (snd acc = Some e \/
         exists cam obj img ts,
           In ((cam, obj), (img, ts)) l /\
           e = {| Multi.entry_cam := cam; Multi.entry_obj := obj;
                  Multi.entry_ts := Multi.py_int ts |})
    end.
Proof.
  induction l as [| [[cam obj] [img ts]] r IH]; intros [imgs lat].
  - simpl. destruct lat as [e | ]; [ | now split].
    split; [intros ? ? ? [] | ].
    split; [intros e0 [= ->]; lia | now left].
  - cbn [fold_left].
    specialize (IH (Multi.gallery_step (imgs, lat) ((cam, obj), (img, ts)))).
    match goal with
    | |- match ?t with Some _ => _ | None => _ end => set (T := t)
    end.
    change (snd (fold_left Multi.gallery_step r
                   (Multi.gallery_step (imgs, lat) ((cam, obj), (img, ts)))))
      with T in IH.
    destruct T as [e | ].
    + destruct IH as (Hall & Hacc & Hin).
      unfold Multi.gallery_step in Hacc, Hin; cbn [fst snd] in Hacc, Hin.
      split; [ | split].
      * intros k img' ts' [H | H]; [ | now apply (Hall k img' ts')].
        replace ts' with ts by congruence.
        destruct lat as [l0 | ].
        -- destruct (Multi.float_gt_int ts (Multi.entry_ts l0)) eqn:G.
           ++ now apply (Hacc _ eq_refl).
           ++ apply float_gt_int_false in G.
              specialize (Hacc _ eq_refl). lia.
        -- now apply (Hacc _ eq_refl).
      * intros e0 He0. cbn [snd] in He0. subst lat.
        destruct (Multi.float_gt_int ts (Multi.entry_ts e0)) eqn:G.
        -- apply float_gt_int_true in G.
           specialize (Hacc _ eq_refl). cbn [Multi.entry_ts] in Hacc. lia.
        -- now apply (Hacc _ eq_refl).
      * destruct Hin as [H | (c & o & i & t & H & ->)].
        -- destruct lat as [l0 | ]; cbn [snd].
           ++ destruct (Multi.float_gt_int ts (Multi.entry_ts l0)).
              ** right. exists cam, obj, img, ts.
                 split; [now left | congruence].
              ** left. exact H.
           ++ right. exists cam, obj, img, ts.
              split; [now left | congruence].
        -- right. exists c, o, i, t. split; [now right | reflexivity].
    + destruct IH as [H _]. unfold Multi.gallery_step in H; cbn [snd] in H.
      destruct lat as [l0 | ]; [ | discriminate].
      destruct (Multi.float_gt_int ts (Multi.entry_ts l0)); discriminate.
Qed.

(** On an empty table [gallery] reports no latest entry; otherwise it
    reports an entry of the table whose timestamp, cut to whole
    seconds, is the greatest of the cut timestamps. *)
Lemma gallery_latest_whole_seconds :
  forall st,
    fst (Multi.gallery st) = st /\
    exists g,
      snd (Multi.gallery st) = Returns g /\
      match Multi.latest g with
      | None => Multi._latest_images st = []
      | Some e =>
          (forall k img ts,
             In (k, (img, ts)) (Multi._latest_images st) ->
             (Multi.py_int ts <= Multi.entry_ts e)%Z) /\
          (exists img ts,
             In ((Multi.entry_cam e, Multi.entry_obj e), (img, ts))
               (Multi._latest_images st) /\
             Multi.entry_ts e = Multi.py_int ts)
      end.
Proof.
  intros st. split; [reflexivity | ].
  unfold Multi.gallery. run_monad. eexists; split; [reflexivity | ].
  cbn [Multi.latest].
  pose proof (gallery_fold_latest (Multi._latest_images st) ([], None)) as H.
  destruct (snd (fold_left Multi.gallery_step (Multi._latest_images st)
                   ([], None))) as [e | ].
  - destruct H as (Hall & _ & [H | (c & o & i & t & H & ->)]);
      [discriminate | ].
    split; [exact Hall | ]. now exists i, t.
  - now destruct H.
Qed.

(** C3. After four snapshots from two cameras the table holds [camA]
    captured at 10.75 s and [camB] captured at 10.5 s, in that order;
    [gallery] then reports [camB] as the latest entry, although
    [camA] has the greater capture time: the loop compares each
    timestamp with the whole seconds kept from the previous one. *)
Theorem gallery_latest_not_newest :
  Multi._latest_images
    (Multi.run_ops Multi.module_globals two_cameras_run Multi.initial)
    = two_cameras /\
  snd (Multi.gallery
         (Multi.run_ops Multi.module_globals two_cameras_run Multi.initial))
    = Returns
        {| Multi.images :=
             [{| Multi.entry_cam := lit "camA";
                 Multi.entry_obj := lit "person"; Multi.entry_ts := 10 |};
              {| Multi.entry_cam := lit "camB";
                 Multi.entry_obj := lit "person"; Multi.entry_ts := 10 |}];
           Multi.latest :=
             Some {| Multi.entry_cam := lit "camB";
                     Multi.entry_obj := lit "person";
                     Multi.entry_ts := 10 |} |} /\
  Multi.dict_get two_cameras (lit "camA", lit "person")
    = Some (PBytes jpeg_marker, 43 # 4) /\
  Multi.dict_get two_cameras (lit "camB", lit "person")
    = Some (PBytes jpeg_marker, 21 # 2) /\
  (21 # 2 < 43 # 4)%Q.
Proof.
  repeat split.
Qed.

(** * Further properties of the code *)

(** ** What the table can hold *)

(** A store that succeeds writes bytes that start with the marker,
    through whichever of the three branches it went. *)
Lemma store_image_for_topic_jpeg :
  forall fetch p cam obj now st st',
    Multi.store_image_for_topic fetch p cam obj now st = (st', Returns true) ->
    exists b,
      starts_with_marker b /\ st' = stored st (cam, obj) (PBytes b) now.
Proof.
  intros fetch p cam obj now st st'.
  unfold Multi.store_image_for_topic.
  destruct (truthy p) eqn:Ht; cbn [negb]; [ | discriminate].
  destruct (Multi.url_shaped (Multi.payload_as_str p)) eqn:Hu.
  - unfold Multi.call_fetch_jpeg_from_url.
    destruct fetch as [f | ]; run_monad; [ | discriminate].
    destruct (f _) as [img | e]; run_monad; [ | discriminate].
    destruct (truthy img); run_monad; [ | discriminate].
    destruct img as [b | s | ]; run_monad; try discriminate.
    destruct (bytes_eqb (firstn 3 b) jpeg_marker) eqn:E; [ | discriminate].
    intros H.
    cbn [Multi._latest_images Multi._sse_clients Multi.next_qid] in H.
    exists b. split; [now apply bytes_eqb_eq | unfold stored; congruence].
  - assert (Hp : p <> PNone) by (intros ->; discriminate Ht).
    rewrite (raw_or_base64_classify p cam obj now st Hp).
    destruct (classify p) as [img | ] eqn:E; [ | discriminate].
    intros H. exists img. split; [ | congruence].
    apply classify_spec in E. now apply classified_marker in E.
Qed.

Lemma run_op_table_jpeg :
  forall fetch o st,
    Multi._latest_images (Multi.run_op fetch o st) = Multi._latest_images st \/
    (exists msg now cam obj b,
       o = Multi.OnMessage msg now /\
       Multi.route (Multi.topic msg) = Some (cam, obj) /\
       starts_with_marker b /\
       Multi._latest_images (Multi.run_op fetch o st)
       = Multi.dict_set (Multi._latest_images st) (cam, obj) (PBytes b, now)).
Proof.
  intros fetch o st.
  destruct (run_op_table fetch o st) as [H | (msg & now & k & img & -> & Hr & H)];
    [now left | ].
  cbn [Multi.run_op] in *.
  destruct msg as [t p]. cbn [Multi.topic] in Hr.
  unfold Multi.on_message, Multi.topic, Multi.payload_of in *.
  revert H. run_monad.
  destruct (len p) as [n | e]; run_monad; [ | now left].
  rewrite Hr. destruct k as [cam obj]. run_monad.
  destruct (Multi.store_image_for_topic fetch p cam obj now st)
    as [st' [[ | ] | e]] eqn:Hs; run_monad.
  - intros _. apply store_image_for_topic_jpeg in Hs.
    destruct Hs as (b & Hb & ->). right.
    exists {| Multi.topic := t; Multi.payload_of := p |}, now, cam, obj, b.
    now repeat split.
  - destruct (store_image_for_topic_cases fetch p cam obj now st)
      as [[i Hi] | [o [Hi _]]]; rewrite Hi in Hs; [congruence | ].
    left. cbn. congruence.
  - destruct (store_image_for_topic_cases fetch p cam obj now st)
      as [[i Hi] | [o [Hi _]]]; rewrite Hi in Hs; [congruence | ].
    left. cbn. congruence.
Qed.

Lemma dict_set_in :
  forall d k v k' v',
    In (k', v') (Multi.dict_set d k v) ->
    (k' = k /\ v' = v) \/ In (k', v') d.
Proof.
  induction d as [| [k0 v0] r IH]; intros k v k' v' H; cbn in H.
  - destruct H as [H | []]. left. split; congruence.
  - destruct (Multi.key_eq_dec k k0) as [E | E].
    + destruct H as [H | H].
      * left. split; congruence.
      * right. now right.
    + destruct H as [H | H].
      * right. now left.
      * apply IH in H. destruct H as [H | H]; [now left | right; now right].
Qed.

(** An invariant of every operation holds along every run. *)
Lemma run_ops_invariant :
  forall (P : Multi.state -> Prop) fetch,
    (forall o st, P st -> P (Multi.run_op fetch o st)) ->
    forall ops st, P st -> P (Multi.run_ops fetch ops st).
Proof.
  intros P fetch Hstep ops. induction ops as [| o r IH]; intros st H.
  - exact H.
  - cbn. apply IH. now apply Hstep.
Qed.

(** X1. Whatever messages and requests arrive, and whatever the fetcher
    is bound to, every image in the table is a bytes object whose
    first three bytes are the JPEG marker. *)
Theorem stored_images_are_jpeg :
  forall fetch ops,
    table_holds_jpegs
      (Multi._latest_images (Multi.run_ops fetch ops Multi.initial)).
Proof.
  intros fetch ops.
  apply (run_ops_invariant
           (fun st => table_holds_jpegs (Multi._latest_images st)) fetch).
  - intros o st H.
    destruct (run_op_table_jpeg fetch o st)
      as [E | (msg & now & cam & obj & b & _ & _ & Hb & E)]; rewrite E.
    + exact H.
    + intros k img ts Hin. apply dict_set_in in Hin.
      destruct Hin as [[_ Hv] | Hin]; [ | now apply (H k img ts)].
      exists b. split; [congruence | exact Hb].
  - intros k img ts [].
Qed.

Lemma dict_set_nodup :
  forall d k v,
    NoDup (Multi.dict_keys d) -> NoDup (Multi.dict_keys (Multi.dict_set d k v)).
Proof.
  intros d k v H. rewrite dict_set_keys.
  destruct (in_dec Multi.key_eq_dec k (Multi.dict_keys d)) as [Hin | Hin];
    [exact H | ].
  apply NoDup_rev in H. rewrite <- (rev_involutive (_ ++ [k])).
  apply NoDup_rev. rewrite rev_app_distr. cbn.
  constructor; [ | exact H].
  intros Hk. apply Hin. now apply in_rev.
Qed.

(** X2. The table never holds two entries under one key, so its
    length counts the distinct keys; and no camera or object name in
    it contains ["/"]. *)
Theorem table_keys_ok :
  forall fetch ops,
    keys_ok (Multi._latest_images (Multi.run_ops fetch ops Multi.initial)).
Proof.
  intros fetch ops.
  apply (run_ops_invariant
           (fun st => keys_ok (Multi._latest_images st)) fetch).
  - intros o st [Hnd Hsl].
    destruct (run_op_table_jpeg fetch o st)
      as [E | (msg & now & cam & obj & b & _ & Hr & _ & E)]; rewrite E.
    + now split.
    + split; [now apply dict_set_nodup | ].
      intros k Hk. rewrite dict_set_keys in Hk.
      destruct (in_dec Multi.key_eq_dec (cam, obj)
                  (Multi.dict_keys (Multi._latest_images st)));
        [now apply Hsl | ].
      apply in_app_or in Hk. destruct Hk as [Hk | [<- | []]];
        [now apply Hsl | ].
      apply route_shape in Hr. now destruct Hr as (_ & Hc & Ho).
  - split; [constructor | intros k []].
Qed.

(** ** From a message to the answers of the HTTP routes *)

(** A payload that is an image is stored, URL test or not. *)
Lemma classified_stored :
  forall fetch p cam obj now st img,
    classified_as p img ->
    Multi.store_image_for_topic fetch p cam obj now st
    = (stored st (cam, obj) (PBytes img) now, Returns true).
Proof.
  intros fetch p cam obj now st img H. apply classify_spec in H.
  destruct (Multi.url_shaped (Multi.payload_as_str p)) eqn:Hu.
  - rewrite (url_shaped_not_classified p Hu) in H. discriminate H.
  - rewrite (multi_store_classify fetch p cam obj now st Hu). now rewrite H.
Qed.

(** X3. When a message on an accepted topic carries an image, the
    image route of its key answers, right afterwards, with status 200,
    the image bytes (the decoded bytes for a base64 payload) and the
    clock reading of the message as its timestamp; the answer for
    every other key is what it was before the message. *)
Theorem message_then_image :
  forall fetch t p now st cam obj img,
    Multi.route t = Some (cam, obj) ->
    classified_as p img ->
    let st' :=
      fst (Multi.on_message fetch
             {| Multi.topic := t; Multi.payload_of := p |} now st) in
    Multi.image cam obj st'
      = (st', Returns (jpeg_response (PBytes img) now)) /\
    forall cam' obj',
      (cam', obj') <> (cam, obj) ->
      snd (Multi.image cam' obj' st') = snd (Multi.image cam' obj' st).
Proof.
  intros fetch t p now st cam obj img Hr Hc st'.
  assert (Hst : st' = stored st (cam, obj) (PBytes img) now).
  { subst st'. unfold Multi.on_message, Multi.topic, Multi.payload_of.
    run_monad.
    destruct (len p) as [n | e] eqn:Hl.
    2:{ destruct p; try discriminate Hl.
        destruct Hc as (b & Hb & _). discriminate Hb. }
    run_monad. rewrite Hr. run_monad.
    now rewrite (classified_stored fetch p cam obj now st img Hc). }
  rewrite Hst. split.
  - unfold Multi.image. run_monad. cbn [stored Multi._latest_images].
    now rewrite dict_get_set_same.
  - intros cam' obj' Hne. unfold Multi.image. run_monad.
    cbn [stored Multi._latest_images].
    rewrite (dict_get_set_other _ _ _ _ Hne).
    destruct (Multi.dict_get (Multi._latest_images st) (cam', obj'))
      as [[i ts] | ]; reflexivity.
Qed.

Lemma message_then_image_witness :
  let st' :=
    fst (Multi.on_message Multi.module_globals
           {| Multi.topic := snapshot_topic;
              Multi.payload_of := base64_jpeg |} 7 Multi.initial) in
  Multi.image (lit "cam1") (lit "person") st'
    = (st', Returns (jpeg_response (PBytes [xff; xd8; xff; xe0]%byte) 7)) /\
  forall cam' obj',
    (cam', obj') <> (lit "cam1", lit "person") ->
    snd (Multi.image cam' obj' st')
    = snd (Multi.image cam' obj' Multi.initial).
Proof.
  apply (message_then_image Multi.module_globals snapshot_topic base64_jpeg
           7 Multi.initial (lit "cam1") (lit "person")
           [xff; xd8; xff; xe0]%byte).
  - reflexivity.
  - apply classify_spec. reflexivity.
Defined.

(** X4. In the single-topic variant a store that accepts its payload
    makes [/image.jpg] answer 200 with the image bytes and the clock
    reading of the store; a store that rejects its payload leaves the
    state, and so the previous image, in place. *)
Theorem single_store_then_image :
  forall p now st,
    let st' := fst (Single.store_image_if_jpeg p now st) in
    (forall img,
       classified_as p img ->
       Single.image st' = (st', Returns (jpeg_response (PBytes img) now))) /\
    ((forall img, ~ classified_as p img) -> st' = st).
Proof.
  intros p now st st'. subst st'. rewrite single_store_classify. split.
  - intros img H. pose proof (classified_marker p img H) as Hm.
    apply classify_spec in H. rewrite H. cbn [fst].
    unfold Single.image. run_monad.
    destruct img as [| x r]; [discriminate Hm | reflexivity].
  - intros H. destruct (classify p) as [img | ] eqn:E; [ | reflexivity].
    apply classify_spec in E. now apply H in E.
Qed.

Lemma single_store_then_image_witness :
  Single.image (fst (Single.store_image_if_jpeg base64_jpeg 7 Single.initial))
    = (fst (Single.store_image_if_jpeg base64_jpeg 7 Single.initial),
       Returns (jpeg_response (PBytes [xff; xd8; xff; xe0]%byte) 7)) /\
  fst (Single.store_image_if_jpeg base64_hello 7 Single.initial)
    = Single.initial.
Proof.
  split.
  - apply (proj1 (single_store_then_image base64_jpeg 7 Single.initial)).
    apply classify_spec. reflexivity.
  - apply (proj2 (single_store_then_image base64_hello 7 Single.initial)).
    intros img H. apply classify_spec in H. discriminate H.
Defined.

(** X5. [/status] of the single-topic variant never raises and never
    changes the state.  It reports an image, with the length of its
    bytes, exactly when the slot holds one; in a reachable state that
    is exactly when the slot is not [None]. *)
Theorem single_status_reflects_slot :
  forall st,
    single_reachable st ->
    exists r,
      Single.status st = (st, Returns r) /\
      Single.last_image_ts r = Single._last_image_ts st /\
      (Single._last_image st = PNone ->
       Single.has_image r = false /\ Single.last_image_size r = 0%nat) /\
      (forall b,
         Single._last_image st = PBytes b ->
         Single.has_image r = true /\
         Single.last_image_size r = List.length b).
Proof.
  intros st Hr. unfold Single.status. run_monad.
  destruct (single_reachable_image st Hr) as [H | (b & H & Hm)]; rewrite H.
  - eexists. split; [reflexivity | ].
    split; [reflexivity | ]. split; [now split | discriminate].
  - destruct b as [| x r]; [discriminate Hm | ].
    cbn [truthy len]. run_monad.
    eexists. split; [reflexivity | ].
    split; [reflexivity | ]. split; [discriminate | ].
    intros b' [= <-]. now split.
Qed.

Lemma single_status_reflects_slot_witness :
  exists r,
    Single.status
      (fst (Single.store_image_if_jpeg base64_jpeg 7 Single.initial))
    = (fst (Single.store_image_if_jpeg base64_jpeg 7 Single.initial),
       Returns r) /\
    Single.has_image r = true /\ Single.last_image_size r = 4%nat.
Proof.
  destruct (single_status_reflects_slot
              (fst (Single.store_image_if_jpeg base64_jpeg 7 Single.initial))
              (reach_store Single.initial base64_jpeg 7 reach_initial))
    as (r & Hs & _ & _ & Hb).
  exists r. split; [exact Hs | ].
  apply (Hb [xff; xd8; xff; xe0]%byte). reflexivity.
Defined.

(** ** The listings: [/gallery] and [/status] *)

Lemma gallery_fold_images :
  forall l acc,
    fst (fold_left Multi.gallery_step l acc) = fst acc ++ map entry_of l.
Proof.
  induction l as [| [[cam obj] [img ts]] r IH]; intros acc; cbn [fold_left map].
  - now rewrite app_nil_r.
  - rewrite IH. cbn [Multi.gallery_step fst]. now rewrite <- app_assoc.
Qed.

(** X6. [/gallery] lists the table as it stands: one object per
    entry, in the order of the keys' first insertion, with the
    timestamp cut to whole seconds; its [latest], when there is one,
    is one of the listed objects; and [/status] counts as many images
    as [/gallery] lists. *)
Theorem gallery_lists_table :
  forall st,
    exists g r,
      Multi.gallery st = (st, Returns g) /\
      Multi.status st = (st, Returns r) /\
      Multi.images g = map entry_of (Multi._latest_images st) /\
      (forall e, Multi.latest g = Some e -> In e (Multi.images g)) /\
      Multi.num_images r = List.length (Multi.images g).
Proof.
  intros st. unfold Multi.gallery, Multi.status. run_monad.
  do 2 eexists. split; [reflexivity | ]. split; [reflexivity | ].
  cbn [Multi.images Multi.latest Multi.num_images].
  rewrite gallery_fold_images. cbn [fst app].
  split; [reflexivity | ]. split; [ | now rewrite length_map].
  intros e He.
  pose proof (gallery_fold_latest (Multi._latest_images st) ([], None)) as H.
  rewrite He in H.
  destruct H as (_ & _ & [H | (c & o & i & t & H & ->)]); [discriminate | ].
  change {| Multi.entry_cam := c; Multi.entry_obj := o;
            Multi.entry_ts := Multi.py_int t |}
    with (entry_of ((c, o), (i, t))).
  now apply in_map.
Qed.

Lemma str_ltb_total :
  forall a b,
    Multi.str_ltb a b = false -> a <> b -> Multi.str_ltb b a = true.
Proof.
  induction a as [| x a IH]; intros [| y b] H Hne; cbn in *;
    try congruence.
  destruct (N.ltb_spec x y); [discriminate | ].
  destruct (N.eqb_spec x y) as [-> | Hxy].
  - rewrite N.ltb_irrefl, N.eqb_refl. apply IH; congruence.
  - destruct (N.ltb_spec y x); [reflexivity | lia].
Qed.

Lemma str_ltb_trans :
  forall a b c,
    Multi.str_ltb a b = true -> Multi.str_ltb b c = true ->
    Multi.str_ltb a c = true.
Proof.
  induction a as [| x a IH]; intros [| y b] [| z c] H1 H2; cbn in *;
    try congruence.
  destruct (N.ltb_spec x y) as [Hxy | Hxy];
  destruct (N.ltb_spec y z) as [Hyz | Hyz].
  - destruct (N.ltb_spec x z); [reflexivity | lia].
  - destruct (N.eqb_spec y z) as [-> | ]; [ | discriminate].
    destruct (N.ltb_spec x z); [reflexivity | lia].
  - destruct (N.eqb_spec x y) as [-> | ]; [ | discriminate].
    destruct (N.ltb_spec y z); [reflexivity | lia].
  - destruct (N.eqb_spec x y) as [-> | ]; [ | discriminate].
    destruct (N.eqb_spec y z) as [-> | ]; [ | discriminate].
    rewrite N.ltb_irrefl. now apply (IH b c).
Qed.

Lemma str_ltb_irrefl : forall a, Multi.str_ltb a a = false.
Proof.
  induction a as [| x a IH]; cbn; [reflexivity | ].
  now rewrite N.ltb_irrefl, N.eqb_refl.
Qed.

Lemma insert_sorted_in :
  forall x l y, In y (Multi.insert_sorted x l) <-> y = x \/ In y l.
Proof.
  intros x l y. induction l as [| z r IH]; cbn.
  - intuition congruence.
  - destruct (str_eqb x z) eqn:E.
    + apply str_eqb_eq in E. subst z. cbn. intuition congruence.
    + destruct (Multi.str_ltb x z); cbn; [intuition congruence | ].
      rewrite IH. intuition congruence.
Qed.

Lemma insert_sorted_hd :
  forall x y r,
    HdRel str_lt y r -> str_lt y x -> HdRel str_lt y (Multi.insert_sorted x r).
Proof.
  intros x y [| z r] Hr Hx; cbn.
  - now constructor.
  - inversion Hr; subst.
    destruct (str_eqb x z); [now constructor | ].
    destruct (Multi.str_ltb x z); now constructor.
Qed.

Lemma insert_sorted_sorted :
  forall x l, Sorted str_lt l -> Sorted str_lt (Multi.insert_sorted x l).
Proof.
  intros x l H. induction H as [| z r Hr IH Hz]; cbn.
  - repeat constructor.
  - destruct (str_eqb x z) eqn:E; [now constructor | ].
    destruct (Multi.str_ltb x z) eqn:L.
    + constructor; [now constructor | now constructor].
    + constructor; [exact IH | ].
      apply insert_sorted_hd; [exact Hz | ].
      apply str_ltb_total; [exact L | ].
      intros ->. now rewrite (proj2 (str_eqb_eq z z) eq_refl) in E.
Qed.

Lemma sorted_set_spec :
  forall l,
    StronglySorted str_lt (Multi.sorted_set l) /\
    forall y, In y (Multi.sorted_set l) <-> In y l.
Proof.
  intros l. split.
  - apply Sorted_StronglySorted.
    + intros a b c. apply str_ltb_trans.
    + induction l as [| x r IH]; cbn; [constructor | ].
      now apply insert_sorted_sorted.
  - induction l as [| x r IH]; intros y; cbn; [reflexivity | ].
    rewrite insert_sorted_in, IH. intuition congruence.
Qed.

(** X7. [/status] of the multi-topic variant never raises and never
    changes the state.  Its camera list is strictly ascending by code
    points, hence free of repeats, and names exactly the cameras that
    have an entry in the table; likewise its object list. *)
Theorem status_lists_sorted :
  forall st,
    exists r,
      Multi.status st = (st, Returns r) /\
      StronglySorted str_lt (Multi.cameras r) /\
      StronglySorted str_lt (Multi.objects r) /\
      (forall c,
         In c (Multi.cameras r) <->
         exists o, In (c, o) (Multi.dict_keys (Multi._latest_images st))) /\
      (forall o,
         In o (Multi.objects r) <->
         exists c, In (c, o) (Multi.dict_keys (Multi._latest_images st))).
Proof.
  intros st. unfold Multi.status. run_monad.
  eexists. split; [reflexivity | ]. cbn [Multi.cameras Multi.objects].
  set (ks := Multi.dict_keys (Multi._latest_images st)).
  destruct (sorted_set_spec (map fst ks)) as [Hc1 Hc2].
  destruct (sorted_set_spec (map snd ks)) as [Ho1 Ho2].
  split; [exact Hc1 | ]. split; [exact Ho1 | ]. split.
  - intros c. rewrite Hc2, in_map_iff. split.
    + intros ([c' o] & <- & H). now exists o.
    + intros (o & H). now exists (c, o).
  - intros o. rewrite Ho2, in_map_iff. split.
    + intros ([c o'] & <- & H). now exists c.
    + intros (c & H). now exists (c, o).
Qed.

(** ** Listeners over time *)

Lemma queue_get_ids :
  forall h l l',
    Multi.queue_get h l = Some l' -> map Multi.qid l' = map Multi.qid l.
Proof.
  intros h l. induction l as [| q r IH]; intros l' H; cbn in H.
  - discriminate.
  - destruct (Nat.eqb (Multi.qid q) h).
    + destruct (Multi.items q); [discriminate | ].
      apply Some_inj in H. now subst l'.
    + destruct (Multi.queue_get h r) as [r' | ]; [ | discriminate].
      apply Some_inj in H. subst l'. cbn. now rewrite (IH r' eq_refl).
Qed.

Lemma remove_queue_nodup :
  forall h l,
    NoDup (map Multi.qid l) -> NoDup (map Multi.qid (Multi.remove_queue h l)).
Proof.
  intros h l. induction l as [| q r IH]; intros H; cbn in *.
  - constructor.
  - inversion H as [| ? ? Hq Hr]; subst.
    destruct (Nat.eqb (Multi.qid q) h); [exact Hr | ].
    cbn. constructor; [ | now apply IH].
    intros Hin. apply Hq. clear - Hin.
    induction r as [| z r IH]; cbn in *; [contradiction | ].
    destruct (Nat.eqb (Multi.qid z) h); cbn in *; intuition.
Qed.

Lemma put_nowait_ids :
  forall l, map Multi.qid (map Multi.put_nowait l) = map Multi.qid l.
Proof.
  intros l. rewrite map_map. reflexivity.
Qed.

Lemma run_op_queues_ok :
  forall fetch o st, queues_ok st -> queues_ok (Multi.run_op fetch o st).
Proof.
  intros fetch o st [Hnd Hf].
  split; [ | now apply run_op_fresh].
  destruct (reads_keep_table st [] [] 0) as (_ & Hg & Hs & _).
  destruct o as [msg now | cam obj | | | | h | h]; cbn [Multi.run_op].
  - destruct (on_message_cases fetch msg now st) as [E | (k & img & _ & E)];
      rewrite E; [exact Hnd | ].
    cbn [stored Multi._sse_clients]. now rewrite put_nowait_ids.
  - now rewrite (proj1 (reads_keep_table st cam obj 0)).
  - now rewrite Hg.
  - now rewrite Hs.
  - unfold Multi.gen_start. run_monad. cbn [fst Multi._sse_clients].
    rewrite map_app. cbn [map Multi.qid].
    apply NoDup_rev in Hnd.
    rewrite <- (rev_involutive (_ ++ _)). apply NoDup_rev.
    rewrite rev_app_distr. cbn. constructor; [ | exact Hnd].
    intros Hin. apply in_rev, in_map_iff in Hin.
    destruct Hin as (q & Hq & Hin).
    unfold queues_fresh in Hf. rewrite Forall_forall in Hf.
    apply Hf in Hin. lia.
  - unfold Multi.gen_resume. run_monad.
    destruct (Multi.queue_get h (Multi._sse_clients st)) as [l' | ] eqn:E;
      cbn [fst Multi._sse_clients]; [ | exact Hnd].
    now rewrite (queue_get_ids h _ l' E).
  - unfold Multi.gen_close. run_monad. cbn [fst Multi._sse_clients].
    now apply remove_queue_nodup.
Qed.

(** X8. In every state a run can reach, the registered queues are
    pairwise distinct and their identities lie below the allocation
    counter, so a handle always denotes at most one registered
    queue. *)
Theorem queue_ids_unique :
  forall fetch ops, queues_ok (Multi.run_ops fetch ops Multi.initial).
Proof.
  intros fetch ops. apply (run_ops_invariant queues_ok fetch).
  - apply run_op_queues_ok.
  - split; constructor.
Qed.

Lemma remove_queue_absent :
  forall h l, ~ In h (map Multi.qid l) -> Multi.remove_queue h l = l.
Proof.
  intros h l. induction l as [| q r IH]; intros H; cbn in *.
  - reflexivity.
  - destruct (Nat.eqb_spec (Multi.qid q) h) as [E | E].
    + exfalso. apply H. now left.
    + rewrite IH; [reflexivity | ]. intros Hin. apply H. now right.
Qed.

Lemma find_queue_none :
  forall h l, find_queue h l = None <-> ~ In h (map Multi.qid l).
Proof.
  intros h l. unfold find_queue. induction l as [| q r IH]; cbn.
  - intuition.
  - destruct (Nat.eqb_spec (Multi.qid q) h) as [E | E].
    + split; [discriminate | intros H; exfalso; apply H; now left].
    + rewrite IH. intuition.
Qed.

Lemma remove_queue_find :
  forall h l,
    NoDup (map Multi.qid l) ->
    find_queue h (Multi.remove_queue h l) = None /\
    forall h', h' <> h ->
               find_queue h' (Multi.remove_queue h l) = find_queue h' l.
Proof.
  intros h l. unfold find_queue.
  induction l as [| q r IH]; intros H; cbn in *.
  - now split.
  - inversion H as [| ? ? Hq Hr]; subst.
    destruct (Nat.eqb_spec (Multi.qid q) h) as [E | E].
    + split.
      * apply find_queue_none. now rewrite <- E.
      * intros h' Hne.
        destruct (Nat.eqb_spec (Multi.qid q) h'); [congruence | reflexivity].
    + destruct (IH Hr) as [IH1 IH2]. cbn. split.
      * destruct (Nat.eqb_spec (Multi.qid q) h); [contradiction | exact IH1].
      * intros h' Hne.
        destruct (Nat.eqb (Multi.qid q) h'); [reflexivity | now apply IH2].
Qed.

(** X9. Closing a stream unregisters its queue and nothing else: the
    handle denotes no queue afterwards, every other handle denotes
    what it did, the image table is untouched, and closing again
    changes nothing. *)
Theorem close_unregisters :
  forall st h,
    queues_ok st ->
    let st' := fst (Multi.gen_close h st) in
    find_queue h (Multi._sse_clients st') = None /\
    (forall h', h' <> h ->
                find_queue h' (Multi._sse_clients st')
                = find_queue h' (Multi._sse_clients st)) /\
    Multi._latest_images st' = Multi._latest_images st /\
    fst (Multi.gen_close h st') = st'.
Proof.
  intros st h [Hnd _] st'. subst st'.
  unfold Multi.gen_close. run_monad.
  cbn [fst Multi._sse_clients Multi._latest_images Multi.next_qid].
  destruct (remove_queue_find h (Multi._sse_clients st) Hnd) as [H1 H2].
  split; [exact H1 | ]. split; [exact H2 | ]. split; [reflexivity | ].
  rewrite (remove_queue_absent h (Multi.remove_queue h (Multi._sse_clients st)));
    [reflexivity | ].
  now apply find_queue_none.
Qed.

Lemma close_unregisters_witness :
  let st := fst (Multi.gen_start (fst (Multi.gen_start Multi.initial))) in
  let st' := fst (Multi.gen_close 0 st) in
  find_queue 0 (Multi._sse_clients st') = None /\
  (forall h', h' <> 0%nat ->
              find_queue h' (Multi._sse_clients st')
              = find_queue h' (Multi._sse_clients st)) /\
  Multi._latest_images st' = Multi._latest_images st /\
  fst (Multi.gen_close 0 st') = st'.
Proof.
  apply (close_unregisters
           (fst (Multi.gen_start (fst (Multi.gen_start Multi.initial)))) 0).
  split.
  - cbn. repeat constructor; cbn; intuition discriminate.
  - repeat constructor.
Defined.

Lemma remove_queue_last :
  forall h l q,
    Forall (fun x => (Multi.qid x < h)%nat) l ->
    Multi.qid q = h ->
    Multi.remove_queue h (l ++ [q]) = l.
Proof.
  intros h l q Hl Hq. induction Hl as [| x r Hx _ IH]; cbn.
  - now rewrite Hq, Nat.eqb_refl.
  - destruct (Nat.eqb_spec (Multi.qid x) h); [lia | now rewrite IH].
Qed.

(** X10. A stream that is opened and then closed leaves the list of
    registered queues exactly as it was, so connect and disconnect
    cycles do not pile up stale queues; only the allocation counter
    has moved on, and identities are not reused. *)
Theorem open_then_close :
  forall st,
    queues_fresh st ->
    let st1 := fst (Multi.gen_start st) in
    let st2 := fst (Multi.gen_close (Multi.next_qid st) st1) in
    Multi._sse_clients st2 = Multi._sse_clients st /\
    Multi._latest_images st2 = Multi._latest_images st /\
    Multi.next_qid st2 = S (Multi.next_qid st).
Proof.
  intros st Hf st1 st2. subst st1 st2.
  unfold Multi.gen_close, Multi.gen_start. run_monad.
  cbn [fst Multi._sse_clients Multi._latest_images Multi.next_qid].
  split; [ | now split].
  now apply remove_queue_last.
Qed.

Lemma open_then_close_witness :
  let st := fst (Multi.gen_start Multi.initial) in
  let st1 := fst (Multi.gen_start st) in
  let st2 := fst (Multi.gen_close (Multi.next_qid st) st1) in
  Multi._sse_clients st2 = Multi._sse_clients st /\
  Multi._latest_images st2 = Multi._latest_images st /\
  Multi.next_qid st2 = S (Multi.next_qid st).
Proof.
  apply (open_then_close (fst (Multi.gen_start Multi.initial))).
  repeat constructor.
Defined.

Lemma notify_n_clients :
  forall k st,
    Multi._sse_clients (notify_n k st)
    = Nat.iter k (map Multi.put_nowait) (Multi._sse_clients st) /\
    Multi._latest_images (notify_n k st) = Multi._latest_images st.
Proof.
  induction k as [| k IH]; intros st; [now split | ].
  destruct (IH st) as [IHc IHt].
  change (notify_n (S k) st)
    with (fst (Multi.notify_sse_clients (notify_n k st))).
  unfold Multi.notify_sse_clients. run_monad.
  cbn [fst Multi._sse_clients Multi._latest_images].
  rewrite IHc, IHt. now split.
Qed.

Lemma find_queue_put_n :
  forall k h l q,
    find_queue h l = Some q ->
    exists q',
      find_queue h (Nat.iter k (map Multi.put_nowait) l) = Some q' /\
      List.length (Multi.items q') = (List.length (Multi.items q) + k)%nat.
Proof.
  induction k as [| k IH]; intros h l q H.
  - exists q. split; [exact H | lia].
  - destruct (IH h l q H) as (q' & Hq' & Hl).
    exists (Multi.put_nowait q').
    change (Nat.iter (S k) (map Multi.put_nowait) l)
      with (map Multi.put_nowait (Nat.iter k (map Multi.put_nowait) l)).
    rewrite find_queue_put, Hq'. split; [reflexivity | ].
    cbn. rewrite length_app. cbn. lia.
Qed.

Lemma resume_n_events :
  forall n h st,
    snd (resume_n h n st)
      = repeat Multi.update_event (Nat.min n (pending h st)) /\
    pending h (fst (resume_n h n st)) = (pending h st - n)%nat /\
    Multi._latest_images (fst (resume_n h n st)) = Multi._latest_images st.
Proof.
  induction n as [| n IH]; intros h st.
  - cbn. repeat split. lia.
  - cbn [resume_n].
    pose proof (gen_resume_pending st h) as H.
    destruct (pending h st) as [| m] eqn:Hp.
    + rewrite H. destruct (IH h st) as (He & Hn & Ht).
      destruct (resume_n h n st) as [st'' rest]. cbn [fst snd] in *.
      rewrite Hp in He, Hn. rewrite Nat.min_0_r in He.
      rewrite He. repeat split; [ | exact Ht]. rewrite Hn. reflexivity.
    + destruct H as (st' & Hr & Hp' & Ht'). rewrite Hr.
      destruct (IH h st') as (He & Hn & Ht).
      destruct (resume_n h n st') as [st'' rest]. cbn [fst snd] in *.
      rewrite Hp' in He, Hn. rewrite He.
      repeat split; [exact Hn | congruence].
Qed.

(** X11. Signals are counted, not merged: after [k] broadcasts a
    registered listener has [k] more signals waiting, and when it then
    resumes [n] times it sends one event for each of its first
    waiting signals, up to [n], and none beyond them.  The image table
    is not touched on the way. *)
Theorem signals_are_counted :
  forall st h q k n,
    find_queue h (Multi._sse_clients st) = Some q ->
    let st1 := notify_n k st in
    pending h st1 = (pending h st + k)%nat /\
    snd (resume_n h n st1)
      = repeat Multi.update_event (Nat.min n (pending h st + k)) /\
    pending h (fst (resume_n h n st1)) = (pending h st + k - n)%nat /\
    Multi._latest_images (fst (resume_n h n st1)) = Multi._latest_images st.
Proof.
  intros st h q k n Hq st1. subst st1.
  destruct (notify_n_clients k st) as [Hc Ht].
  assert (Hp : pending h (notify_n k st) = (pending h st + k)%nat).
  { unfold pending. rewrite Hc, Hq.
    destruct (find_queue_put_n k h _ q Hq) as (q' & -> & Hl). exact Hl. }
  destruct (resume_n_events n h (notify_n k st)) as (He & Hn & Ht').
  rewrite Hp in He, Hn. now rewrite Ht' , Ht.
Qed.

Lemma signals_are_counted_witness :
  let st := fst (Multi.gen_start Multi.initial) in
  let st1 := notify_n 3 st in
  pending 0 st1 = (pending 0 st + 3)%nat /\
  snd (resume_n 0 5 st1)
    = repeat Multi.update_event (Nat.min 5 (pending 0 st + 3)) /\
  pending 0 (fst (resume_n 0 5 st1)) = (pending 0 st + 3 - 5)%nat /\
  Multi._latest_images (fst (resume_n 0 5 st1)) = Multi._latest_images st.
Proof.
  apply (signals_are_counted (fst (Multi.gen_start Multi.initial)) 0
           {| Multi.qid := 0; Multi.items := [] |} 3 5).
  reflexivity.
Defined.

(** ** Which base64 texts are images *)

(** After padding has started the decoder produces no further byte. *)
Lemma a2b_loop_padded :
  forall data quad_pos leftchar pads out d,
    a2b_loop data quad_pos leftchar pads true out = Returns d ->
    d = rev out.
Proof.
  induction data as [| c rest IH]; intros quad_pos leftchar pads out d H;
    cbn [a2b_loop] in H.
  - destruct (quad_pos =? 0)%N; [ | discriminate].
    now apply Returns_inj in H.
  - destruct (Byte.eqb c BASE64_PAD).
    + destruct ((2 <=? quad_pos)%N && (4 <=? quad_pos + (pads + 1))%N).
      * destruct rest; [ | discriminate]. now apply Returns_inj in H.
      * now apply IH in H.
    + destruct (table_a2b_base64 c); discriminate.
Qed.

(** The character that stands for a six-bit value. *)
Lemma table_a2b_base64_char :
  forall b v,
    table_a2b_base64 b = Some v ->
    Byte.to_N b
    = (if v <? 26 then v + 65
       else if v <? 52 then v - 26 + 97
       else if v <? 62 then v - 52 + 48
       else if v =? 62 then 43 else 47)%N.
Proof.
  intros b v. unfold table_a2b_base64.
  set (n := Byte.to_N b).
  destruct ((65 <=? n)%N && (n <=? 90)%N) eqn:E1.
  { apply andb_true_iff in E1. rewrite !N.leb_le in E1.
    intros H. apply Some_inj in H. subst v.
    destruct (N.ltb_spec (n - 65) 26); lia. }
  destruct ((97 <=? n)%N && (n <=? 122)%N) eqn:E2.
  { apply andb_true_iff in E2. rewrite !N.leb_le in E2.
    intros H. apply Some_inj in H. subst v.
    destruct (N.ltb_spec (n - 97 + 26) 26); [lia | ].
    destruct (N.ltb_spec (n - 97 + 26) 52); lia. }
  destruct ((48 <=? n)%N && (n <=? 57)%N) eqn:E3.
  { apply andb_true_iff in E3. rewrite !N.leb_le in E3.
    intros H. apply Some_inj in H. subst v.
    destruct (N.ltb_spec (n - 48 + 52) 26); [lia | ].
    destruct (N.ltb_spec (n - 48 + 52) 52); [lia | ].
    destruct (N.ltb_spec (n - 48 + 52) 62); lia. }
  destruct (N.eqb_spec n 43).
  { intros H. apply Some_inj in H. subst v. cbn. assumption. }
  destruct (N.eqb_spec n 47); [ | discriminate].
  intros H. apply Some_inj in H. subst v. cbn. assumption.
Qed.

Lemma byte_of_to_N : forall b, byte_of (Byte.to_N b) = b.
Proof.
  intros b. unfold byte_of. now rewrite Byte.of_to_N.
Qed.

(** The six-bit values whose three decoded bytes are [FF D8 FF]. *)
Lemma marker_sextets :
  forall v0 v1 v2 v3,
    (v0 < 64)%N -> (v1 < 64)%N -> (v2 < 64)%N -> (v3 < 64)%N ->
    N.lor (N.shiftl v0 2) (N.shiftr v1 4) = 255%N ->
    N.lor (N.shiftl (N.land v1 15) 4) (N.shiftr v2 2) = 216%N ->
    N.lor (N.shiftl (N.land v2 3) 6) v3 = 255%N ->
    v0 = 63%N /\ v1 = 61%N /\ v2 = 35%N /\ v3 = 63%N.
Proof.
  intros v0 v1 v2 v3 H0 H1 H2 H3 E1 E2 E3.
  apply (proj2 (N.eqb_eq _ _)) in E1, E2, E3.
  assert (A1 : ((v0 =? 63) && (48 <=? v1))%N = true).
  { pose proof (sextets_forall
      (fun a b => implb (N.lor (N.shiftl a 2) (N.shiftr b 4) =? 255)%N
                    ((a =? 63) && (48 <=? b))%N)
      ltac:(vm_compute; reflexivity) v0 v1 H0 H1) as H.
    cbv beta in H. now rewrite E1 in H. }
  assert (A2 : (implb (48 <=? v1)
                  ((v1 =? 61) && (32 <=? v2) && (v2 <=? 35)))%N = true).
  { pose proof (sextets_forall
      (fun a b =>
         implb (N.lor (N.shiftl (N.land a 15) 4) (N.shiftr b 2) =? 216)%N
           (implb (48 <=? a) ((a =? 61) && (32 <=? b) && (b <=? 35)))%N)
      ltac:(vm_compute; reflexivity) v1 v2 H1 H2) as H.
    cbv beta in H. now rewrite E2 in H. }
  assert (A3 : (implb ((32 <=? v2) && (v2 <=? 35))
                  ((v2 =? 35) && (v3 =? 63)))%N = true).
  { pose proof (sextets_forall
      (fun a b =>
         implb (N.lor (N.shiftl (N.land a 3) 6) b =? 255)%N
           (implb ((32 <=? a) && (a <=? 35)) ((a =? 35) && (b =? 63)))%N)
      ltac:(vm_compute; reflexivity) v2 v3 H2 H3) as H.
    cbv beta in H. now rewrite E3 in H. }
  clear E1 E2 E3.
  apply andb_true_iff in A1. destruct A1 as [A10 A11].
  rewrite A11 in A2. cbn [implb] in A2.
  rewrite !andb_true_iff in A2. destruct A2 as [[A21 A22] A23].
  rewrite A22, A23 in A3. cbn [implb andb] in A3.
  apply andb_true_iff in A3. destruct A3 as [A31 A32].
  rewrite !N.eqb_eq in *. now repeat split.
Qed.

(** Strict base64 decodes to bytes that start with the JPEG marker
    only from text that starts with the four characters [/9j/]. *)
Lemma b64decode_marker_prefix :
  forall bs d,
    b64decode_validate bs = Returns d ->
    starts_with_marker d ->
    exists rest, bs = blit "/9j/" ++ rest.
Proof.
  intros bs d Hd Hm. unfold starts_with_marker, jpeg_marker in Hm.
  unfold b64decode_validate in Hd.
  destruct bs as [| b0 r0].
  { cbn in Hd. apply Returns_inj in Hd. subst d. discriminate Hm. }
  destruct (Byte.eqb b0 BASE64_PAD) eqn:P0; [discriminate | ].
  cbn [a2b_loop] in Hd. rewrite P0 in Hd.
  destruct (table_a2b_base64 b0) as [v0 | ] eqn:T0; [ | discriminate].
  change ((0 =? 0)%N) with true in Hd. cbv beta iota in Hd.
  destruct r0 as [| b1 r1]; [discriminate | ].
  cbn [a2b_loop] in Hd.
  destruct (Byte.eqb b1 BASE64_PAD).
  { change ((2 <=? 1)%N) with false in Hd. cbn [andb] in Hd.
    destruct (a2b_loop_padding_stuck r1 v0 0 []) as [e He].
    rewrite He in Hd. discriminate. }
  destruct (table_a2b_base64 b1) as [v1 | ] eqn:T1; [ | discriminate].
  change ((1 =? 0)%N) with false in Hd.
  change ((1 =? 1)%N) with true in Hd. cbv beta iota in Hd.
  destruct r1 as [| b2 r2]; [discriminate | ].
  cbn [a2b_loop] in Hd.
  destruct (Byte.eqb b2 BASE64_PAD).
  { change ((2 <=? 2)%N && (4 <=? 2 + (0 + 1))%N) with false in Hd.
    cbv beta iota in Hd.
    apply a2b_loop_padded in Hd. subst d. discriminate Hm. }
  destruct (table_a2b_base64 b2) as [v2 | ] eqn:T2; [ | discriminate].
  change ((2 =? 0)%N) with false in Hd.
  change ((2 =? 1)%N) with false in Hd.
  change ((2 =? 2)%N) with true in Hd. cbv beta iota in Hd.
  destruct r2 as [| b3 r3]; [discriminate | ].
  cbn [a2b_loop] in Hd.
  destruct (Byte.eqb b3 BASE64_PAD).
  { change ((2 <=? 3)%N && (4 <=? 3 + (0 + 1))%N) with true in Hd.
    cbv beta iota in Hd.
    destruct r3; [ | discriminate].
    apply Returns_inj in Hd. subst d. discriminate Hm. }
  destruct (table_a2b_base64 b3) as [v3 | ] eqn:T3; [ | discriminate].
  change ((3 =? 0)%N) with false in Hd.
  change ((3 =? 1)%N) with false in Hd.
  change ((3 =? 2)%N) with false in Hd. cbv beta iota in Hd.
  apply a2b_loop_prefix in Hd. destruct Hd as [t ->].
  cbn [rev app firstn] in Hm.
  assert (B1 : byte_of (N.lor (N.shiftl v0 2) (N.shiftr v1 4)) = xff)
    by congruence.
  assert (B2 : byte_of (N.lor (N.shiftl (N.land v1 15) 4) (N.shiftr v2 2))
               = xd8) by congruence.
  assert (B3 : byte_of (N.lor (N.shiftl (N.land v2 3) 6) v3) = xff)
    by congruence.
  assert (E1 : Byte.to_N (byte_of (N.lor (N.shiftl v0 2) (N.shiftr v1 4)))
               = 255%N) by now rewrite B1.
  assert (E2 : Byte.to_N
                 (byte_of (N.lor (N.shiftl (N.land v1 15) 4) (N.shiftr v2 2)))
               = 216%N) by now rewrite B2.
  assert (E3 : Byte.to_N (byte_of (N.lor (N.shiftl (N.land v2 3) 6) v3))
               = 255%N) by now rewrite B3.
  apply to_N_byte_of in E1, E2, E3; try discriminate.
  destruct (marker_sextets v0 v1 v2 v3
              (table_a2b_base64_bound b0 v0 T0)
              (table_a2b_base64_bound b1 v1 T1)
              (table_a2b_base64_bound b2 v2 T2)
              (table_a2b_base64_bound b3 v3 T3) E1 E2 E3)
    as (-> & -> & -> & ->).
  apply table_a2b_base64_char in T0, T1, T2, T3. cbn in T0, T1, T2, T3.
  exists r3.
  rewrite <- (byte_of_to_N b0), <- (byte_of_to_N b1),
    <- (byte_of_to_N b2), <- (byte_of_to_N b3), T0, T1, T2, T3.
  reflexivity.
Qed.

(** X12. A bytes payload that is stored although it does not itself
    start with the JPEG marker begins with the four characters
    [/9j/]: no other base64 text is ever accepted, in the
    single-topic variant and in the multi-topic module as written. *)
Theorem base64_images_start_with_9j :
  forall bs cam obj now s1 s1' s2 s2',
    ~ starts_with_marker bs ->
    (Single.store_image_if_jpeg (PBytes bs) now s1 = (s1', Returns true) ->
     exists rest, bs = blit "/9j/" ++ rest) /\
    (Multi.store_image_for_topic Multi.module_globals (PBytes bs)
       cam obj now s2 = (s2', Returns true) ->
     exists rest, bs = blit "/9j/" ++ rest).
Proof.
  intros bs cam obj now s1 s1' s2 s2' Hn.
  assert (Hc : forall img, classify (PBytes bs) = Some img ->
                           exists rest, bs = blit "/9j/" ++ rest).
  { intros img H. apply classify_spec in H.
    destruct H as (b & Hb & [[Hm _] | (_ & Hd & Hm)]);
      apply Some_inj in Hb; subst b; [contradiction | ].
    now apply (b64decode_marker_prefix bs img). }
  split.
  - rewrite single_store_classify.
    destruct (classify (PBytes bs)) as [img | ] eqn:E; [ | discriminate].
    intros _. now apply (Hc img).
  - intros H.
    destruct (Multi.url_shaped (Multi.payload_as_str (PBytes bs))) eqn:Hu.
    + destruct bs as [| x r].
      * discriminate Hu.
      * unfold Multi.module_globals in H.
        rewrite (store_url_unbound (PBytes (x :: r)) cam obj now s2
                   eq_refl Hu) in H.
        discriminate H.
    + rewrite (multi_store_classify _ _ cam obj now s2 Hu) in H.
      destruct (classify (PBytes bs)) as [img | ] eqn:E; [ | discriminate].
      now apply (Hc img).
Qed.

Lemma base64_images_start_with_9j_witness :
  exists rest, blit "/9j/4A==" = blit "/9j/" ++ rest.
Proof.
  apply (proj1 (base64_images_start_with_9j (blit "/9j/4A==")
                  [] [] 7 Single.initial
                  (fst (Single.store_image_if_jpeg base64_jpeg 7
                          Single.initial))
                  Multi.initial Multi.initial
                  ltac:(discriminate))).
  reflexivity.
Defined.

(** ** The URL branch, the order of the checks, and routing *)

(** X13. With a fetcher bound, a URL-shaped payload is settled by the
    fetch alone.  A fetched bytes body that starts with the marker is
    stored as it is, under the message's key and clock reading, and the
    listeners are signalled; any other returned value gives [False]
    with the state unchanged, base64 being never tried; and an
    exception raised by the fetcher escapes the store operation. *)
Theorem url_branch_with_fetcher :
  forall f p cam obj now st,
    truthy p = true ->
    Multi.url_shaped (Multi.payload_as_str p) = true ->
    let url := strip (match Multi.payload_as_str p with
                      | Some s => s
                      | None => []
                      end) in
    Multi.store_image_for_topic (Some f) p cam obj now st
    = match f url with
      | Returns (PBytes b) =>
          if bytes_eqb (firstn 3 b) jpeg_marker
          then (stored st (cam, obj) (PBytes b) now, Returns true)
          else (st, Returns false)
      | Returns _ => (st, Returns false)
      | Raises e => (st, Raises e)
      end.
Proof.
  intros f p cam obj now st Ht Hu url. subst url.
  unfold Multi.store_image_for_topic. rewrite Ht, Hu. cbn [negb].
  unfold Multi.call_fetch_jpeg_from_url. run_monad.
  destruct (f _) as [[b | s | ] | e]; run_monad; try reflexivity.
  - destruct b as [| x r]; [reflexivity | ].
    cbn [truthy]. run_monad.
    destruct (bytes_eqb (firstn 3 (x :: r)) jpeg_marker); reflexivity.
  - destruct s; reflexivity.
Qed.

Lemma url_branch_with_fetcher_witness :
  Multi.store_image_for_topic
    (Some (fun _ => Returns (PBytes (jpeg_marker ++ [x00]%byte))))
    url_payload (lit "cam1") (lit "person") 7 Multi.initial
  = (stored Multi.initial (lit "cam1", lit "person")
       (PBytes (jpeg_marker ++ [x00]%byte)) 7, Returns true).
Proof.
  apply (url_branch_with_fetcher
           (fun _ => Returns (PBytes (jpeg_marker ++ [x00]%byte)))
           url_payload (lit "cam1") (lit "person") 7 Multi.initial);
    reflexivity.
Defined.

(** X14. The URL test, which comes first, takes no image away from the
    checks that follow it: a payload that is URL-shaped is neither a
    raw JPEG nor base64 of one. *)
Theorem url_test_shadows_no_image :
  forall p img,
    Multi.url_shaped (Multi.payload_as_str p) = true ->
    ~ classified_as p img.
Proof.
  intros p img Hu H. apply classify_spec in H.
  rewrite (url_shaped_not_classified p Hu) in H. discriminate H.
Qed.

Lemma url_test_shadows_no_image_witness :
  ~ classified_as url_payload (blit "https://example.com/img.jpg").
Proof.
  apply (url_test_shadows_no_image url_payload). reflexivity.
Defined.

(** X15. A store is all or nothing: either it returns [True], having
    written one record of marker-led bytes under its key and put one
    signal into every listener queue, or it does not return [True]
    and the whole state is as before.  No record is written without
    the broadcast and no broadcast is made without a record. *)
Theorem store_all_or_nothing :
  forall fetch p cam obj now st,
    (exists b,
       starts_with_marker b /\
       Multi.store_image_for_topic fetch p cam obj now st
       = (stored st (cam, obj) (PBytes b) now, Returns true)) \/
    (exists o,
       o <> Returns true /\
       Multi.store_image_for_topic fetch p cam obj now st = (st, o)).
Proof.
  intros fetch p cam obj now st.
  destruct (Multi.store_image_for_topic fetch p cam obj now st)
    as [st' o] eqn:E.
  destruct (store_image_for_topic_cases fetch p cam obj now st)
    as [[img H] | [o' [H Ho]]]; rewrite E in H.
  - assert (o = Returns true) by congruence. subst o.
    destruct (store_image_for_topic_jpeg fetch p cam obj now st st' E)
      as (b & Hb & ->).
    left. now exists b.
  - right. exists o. split; congruence.
Qed.

(** X16. The accepted topics are exactly the texts
    [frigate/<cam>/<obj>/snapshot] in which [cam] and [obj] contain no
    ["/"]; either may be empty.  The key determines the topic, so two
    different accepted topics never share a slot. *)
Theorem accepted_topics :
  (forall t cam obj,
     Multi.route t = Some (cam, obj) <->
     t = lit "frigate" ++ 47%N :: cam ++ 47%N :: obj
           ++ 47%N :: lit "snapshot"
     /\ ~ In 47%N cam /\ ~ In 47%N obj) /\
  (forall t1 t2 k,
     Multi.route t1 = Some k -> Multi.route t2 = Some k -> t1 = t2).
Proof.
  split; [exact route_shape | ].
  intros t1 t2 [cam obj] H1 H2.
  apply route_shape in H1, H2.
  destruct H1 as [-> _], H2 as [-> _]. reflexivity.
Qed.

Lemma accepted_topics_witness :
  snapshot_topic = lit "frigate/cam1/person/snapshot".
Proof.
  apply (proj2 accepted_topics snapshot_topic
           (lit "frigate/cam1/person/snapshot") (lit "cam1", lit "person"));
    reflexivity.
Defined.

(** X17. [/gallery] never raises and never changes the state.  On an
    empty table it reports no latest entry; otherwise its latest entry
    is an entry of the table whose timestamp, cut to whole seconds,
    is the greatest of the cut timestamps of all entries. *)
Theorem gallery_latest_greatest_second :
  forall st,
    exists g,
      Multi.gallery st = (st, Returns g) /\
      match Multi.latest g with
      | None => Multi._latest_images st = []
      | Some e =>
          (forall k img ts,
             In (k, (img, ts)) (Multi._latest_images st) ->
             (Multi.py_int ts <= Multi.entry_ts e)%Z) /\
          (exists img ts,
             In ((Multi.entry_cam e, Multi.entry_obj e), (img, ts))
               (Multi._latest_images st) /\
             Multi.entry_ts e = Multi.py_int ts)
      end.
Proof.
  intros st.
  destruct (gallery_latest_whole_seconds st) as (Hs & g & Hg & H).
  exists g. split; [ | exact H].
  destruct (Multi.gallery st) as [st' o]. cbn in Hs, Hg. congruence.
Qed.

(** X18. In the single-topic variant the slot holds, in every state a
    run of stores can reach, either nothing or bytes starting with the
    JPEG marker; message handling reaches no other states. *)
Theorem single_slot_is_jpeg :
  (forall st,
     single_reachable st ->
     Single._last_image st = PNone \/
     (exists b, Single._last_image st = PBytes b /\ starts_with_marker b)) /\
  (forall topic_pattern matcher msg now st,
     single_reachable st ->
     single_reachable
       (fst (Single.on_message topic_pattern matcher msg now st))).
Proof.
  split; [exact single_reachable_image | exact single_on_message_reachable].
Qed.

Lemma single_slot_is_jpeg_witness :
  (Single._last_image
     (fst (Single.store_image_if_jpeg base64_jpeg 7 Single.initial)) = PNone \/
   exists b,
     Single._last_image
       (fst (Single.store_image_if_jpeg base64_jpeg 7 Single.initial))
     = PBytes b /\ starts_with_marker b) /\
  single_reachable
    (fst (Single.on_message snapshot_topic (fun _ _ => Returns true)
            {| Single.topic := snapshot_topic;
               Single.payload_of := base64_jpeg |} 7 Single.initial)).
Proof.
  split.
  - apply (proj1 single_slot_is_jpeg). constructor. constructor.
  - apply (proj2 single_slot_is_jpeg). constructor.
Defined.

(** X19. In the single-topic variant the topic test gates the store:
    a message is handed to the store operation when
    [topic_matches_sub] says it matches, or, should that routine
    raise, when its topic equals the subscription text; any other
    message with a payload returns at once and leaves the state
    alone. *)
Theorem single_topic_gate :
  forall topic_pattern matcher t p now st,
    p <> PNone ->
    let matches :=
      match matcher topic_pattern t with
      | Returns b => b
      | Raises _ => str_eqb t topic_pattern
      end in
    (matches = true ->
     fst (Single.on_message topic_pattern matcher
            {| Single.topic := t; Single.payload_of := p |} now st)
     = fst (Single.store_image_if_jpeg p now st)) /\
    (matches = false ->
     Single.on_message topic_pattern matcher
       {| Single.topic := t; Single.payload_of := p |} now st
     = (st, Returns tt)).
Proof.
  intros pat matcher t p now st Hp matches. subst matches.
  unfold Single.on_message, Single.topic, Single.payload_of. run_monad.
  destruct (len p) as [n | e] eqn:Hl.
  2:{ destruct p; cbn in Hl; congruence. }
  run_monad.
  destruct (matcher pat t) as [[ | ] | e]; run_monad.
  - split; [intros _ | discriminate].
    now destruct (Single.store_image_if_jpeg p now st) as [s' [r | x]].
  - split; [discriminate | reflexivity].
  - destruct (str_eqb t pat); split; try discriminate; try reflexivity.
    intros _.
    now destruct (Single.store_image_if_jpeg p now st) as [s' [r | x]].
Qed.

Lemma single_topic_gate_witness :
  fst (Single.on_message snapshot_topic (fun _ _ => Raises OtherError)
         {| Single.topic := snapshot_topic;
            Single.payload_of := base64_jpeg |} 7 Single.initial)
    = fst (Single.store_image_if_jpeg base64_jpeg 7 Single.initial) /\
  Single.on_message snapshot_topic (fun _ _ => Returns false)
    {| Single.topic := snapshot_topic;
       Single.payload_of := base64_jpeg |} 7 Single.initial
    = (Single.initial, Returns tt).
Proof.
  split.
  - apply (proj1 (single_topic_gate snapshot_topic
                    (fun _ _ => Raises OtherError) snapshot_topic
                    base64_jpeg 7 Single.initial ltac:(discriminate))).
    reflexivity.
  - apply (proj2 (single_topic_gate snapshot_topic
                    (fun _ _ => Returns false) snapshot_topic
                    base64_jpeg 7 Single.initial ltac:(discriminate))).
    reflexivity.
Defined.

(** ** Start-up and shutdown *)

Lemma skipn_length_app :
  forall (A : Type) (l r : list A), skipn (List.length l) (l ++ r) = r.
Proof.
  intros A l r. induction l as [| x l IH]; [reflexivity | exact IH].
Qed.

Ltac pick_prefix :=
  match goal with
  | |- exists pre, ?l = pre ++ ?s /\ _ =>
      exists (firstn (List.length l - List.length s) l);
      split; [reflexivity | ]
  end.

(** X20. [start_mqtt_client] starts the network loop only as the call
    right after a [connect] that did not raise, and as its last call;
    it returns only after having started the loop; and when [connect]
    cannot succeed it raises without ever starting the loop. *)
Theorem loop_starts_only_after_connect :
  forall cfg fails with_tls tr,
    let start := Startup.start_mqtt_client cfg fails with_tls in
    let connect :=
      Startup.Connect (Startup.MQTT_BROKER_HOST cfg)
        (Startup.MQTT_BROKER_PORT cfg) 60 in
    fst (start tr) = tr ++ calls_of start tr /\
    (In Startup.LoopStart (calls_of start tr) ->
     exists pre,
       calls_of start tr = pre ++ [connect; Startup.LoopStart] /\
       fails (tr ++ pre) connect = None) /\
    (snd (start tr) = Returns tt -> In Startup.LoopStart (calls_of start tr)) /\
    (forall e,
       (forall h, fails h connect = Some e) ->
       ~ In Startup.LoopStart (calls_of start tr) /\
       exists e', snd (start tr) = Raises e').
Proof.
  intros cfg fails with_tls tr start connect. subst start connect.
  unfold calls_of.
  destruct with_tls; trace_cases fails;
    rewrite ?app_nil_r, ?skipn_length_app;
    (split; [reflexivity | ]);
    (split; [intros Hin; cbn in Hin;
             try (exfalso; intuition discriminate);
             pick_prefix; cbn [List.length Nat.sub firstn app];
             rewrite ?app_nil_r; assumption | ]);
    (split; [intros Hs; try discriminate Hs; cbn; intuition | ]);
    intros e0 He; rewrite ?He in *;
    try congruence;
    (split; [cbn; intuition discriminate | eexists; reflexivity]).
Qed.

Lemma loop_starts_only_after_connect_witness :
  (exists pre,
     calls_of (Startup.start_mqtt_client sample_config never_fails true) []
       = pre ++ [Startup.Connect (lit "localhost") 1883 60;
                 Startup.LoopStart] /\
     never_fails ([] ++ pre) (Startup.Connect (lit "localhost") 1883 60)
       = None) /\
  In Startup.LoopStart
    (calls_of (Startup.start_mqtt_client sample_config never_fails true) []) /\
  (~ In Startup.LoopStart
       (calls_of (Startup.start_mqtt_client sample_config broker_down true)
          []) /\
   exists e',
     snd (Startup.start_mqtt_client sample_config broker_down true [])
     = Raises e').
Proof.
  split; [ | split].
  - apply (proj1 (proj2 (loop_starts_only_after_connect
                           sample_config never_fails true []))).
    cbn. intuition.
  - apply (proj1 (proj2 (proj2 (loop_starts_only_after_connect
                                  sample_config never_fails true [])))).
    reflexivity.
  - apply (proj2 (proj2 (proj2 (loop_starts_only_after_connect
                                  sample_config broker_down true [])))
             OtherError).
    reflexivity.
Defined.

(** The keyword arguments that survive the filter. *)
Lemma drop_none_usable :
  forall a b c : Startup.env,
    Startup.env_truthy b = true -> Startup.env_truthy c = true ->
    Startup.drop_none
      [("ca_certs"%string,
        if Startup.env_truthy a then a else None);
       ("certfile"%string, b); ("keyfile"%string, c)]
    = (if Startup.env_truthy a then [("ca_certs"%string, a)] else [])
      ++ [("certfile"%string, b); ("keyfile"%string, c)].
Proof.
  intros [[| x a] | ] [b | ] [c | ] Hb Hc; try discriminate; reflexivity.
Qed.

(** The run of the TLS part: the calls it makes and its outcome. *)
Lemma configure_tls_run :
  forall cfg fails tr,
    let client_auth :=
      Startup.env_truthy (Startup.MQTT_CLIENT_CERT cfg)
      && Startup.env_truthy (Startup.MQTT_CLIENT_KEY cfg) in
    let ca := Startup.env_truthy (Startup.MQTT_CA_CERT cfg) in
    let kw :=
      if client_auth
      then (if ca then [("ca_certs"%string, Startup.MQTT_CA_CERT cfg)]
            else [])
           ++ [("certfile"%string, Startup.MQTT_CLIENT_CERT cfg);
               ("keyfile"%string, Startup.MQTT_CLIENT_KEY cfg)]
      else [("ca_certs"%string, Startup.MQTT_CA_CERT cfg)] in
    Startup.configure_tls cfg fails tr
    = if client_auth || ca
      then match fails tr (Startup.TlsSet kw) with
           | Some e => (tr ++ [Startup.TlsSet kw], Raises e)
           | None =>
               (tr ++ [Startup.TlsSet kw; Startup.TlsInsecureSet false],
                match fails (tr ++ [Startup.TlsSet kw])
                        (Startup.TlsInsecureSet false) with
                | Some e => Raises e
                | None => Returns tt
                end)
           end
      else (tr, Returns tt).
Proof.
  intros cfg fails tr client_auth ca kw. subst client_auth ca kw.
  unfold Startup.configure_tls.
  destruct (Startup.env_truthy (Startup.MQTT_CLIENT_CERT cfg)) eqn:Ec;
    destruct (Startup.env_truthy (Startup.MQTT_CLIENT_KEY cfg)) eqn:Ek;
    cbn [andb orb];
    try rewrite (drop_none_usable _ _ _ Ec Ek);
    destruct (Startup.env_truthy (Startup.MQTT_CA_CERT cfg)) eqn:Eca;
    try reflexivity;
    unfold Startup.perform, bind;
    match goal with
    | |- context [fails tr ?c] => destruct (fails tr c)
    end;
    cbv beta iota zeta; try reflexivity;
    rewrite <- app_assoc; reflexivity.
Qed.

(** The calls after the TLS part: [connect], then [loop_start]. *)
Lemma connect_calls :
  forall cfg fails tr1,
    exists rest,
      fst ((try_except
              (Startup.perform fails
                 (Startup.Connect (Startup.MQTT_BROKER_HOST cfg)
                    (Startup.MQTT_BROKER_PORT cfg) 60))
              (fun e : exn => raise e) ;;;
            Startup.perform fails Startup.LoopStart) tr1)
      = tr1 ++ rest /\ Forall not_tls rest.
Proof.
  intros cfg fails tr1.
  unfold bind, try_except, raise, Startup.perform.
  destruct (fails tr1 _) as [e | ]; cbv beta iota zeta; cbn [fst].
  - eexists. split; [reflexivity | ]. repeat constructor.
  - eexists. split; [now rewrite <- app_assoc | ]. repeat constructor.
Qed.

(** With the credentials set, the calls of the multi-topic
    [start_mqtt_client] are the credentials, the TLS part and the
    connection, in that order. *)
Lemma tls_call_sequence :
  forall cfg fails tr,
    let calls :=
      calls_of (Startup.start_mqtt_client cfg fails true) tr in
    let client_auth :=
      Startup.env_truthy (Startup.MQTT_CLIENT_CERT cfg)
      && Startup.env_truthy (Startup.MQTT_CLIENT_KEY cfg) in
    let ca := Startup.env_truthy (Startup.MQTT_CA_CERT cfg) in
    let kw :=
      if client_auth
      then (if ca then [("ca_certs"%string, Startup.MQTT_CA_CERT cfg)]
            else [])
           ++ [("certfile"%string, Startup.MQTT_CLIENT_CERT cfg);
               ("keyfile"%string, Startup.MQTT_CLIENT_KEY cfg)]
      else [("ca_certs"%string, Startup.MQTT_CA_CERT cfg)] in
    let user :=
      Startup.UsernamePwSet (Startup.MQTT_USERNAME cfg)
        (Startup.MQTT_PASSWORD cfg) in
    let user_calls :=
      if Startup.env_truthy (Startup.MQTT_USERNAME cfg) then [user] else [] in
    ((Startup.env_truthy (Startup.MQTT_USERNAME cfg) = true ->
      fails tr user = None) ->
     exists rest,
       calls
       = user_calls
         ++ (if client_auth || ca
             then Startup.TlsSet kw
                  :: match fails (tr ++ user_calls) (Startup.TlsSet kw) with
                     | Some _ => []
                     | None => [Startup.TlsInsecureSet false]
                     end
             else [])
         ++ rest /\
       Forall not_tls rest) /\
    (forall e,
       Startup.env_truthy (Startup.MQTT_USERNAME cfg) = true ->
       fails tr user = Some e ->
       calls = [user]).
Proof.
  intros cfg fails tr calls client_auth ca kw user user_calls.
  assert (Htail : forall tr1,
            exists rest,
              fst ((Startup.configure_tls cfg fails ;;;
                    try_except
                      (Startup.perform fails
                         (Startup.Connect (Startup.MQTT_BROKER_HOST cfg)
                            (Startup.MQTT_BROKER_PORT cfg) 60))
                      (fun e : exn => raise e) ;;;
                    Startup.perform fails Startup.LoopStart) tr1)
              = tr1
                ++ (if client_auth || ca
                    then Startup.TlsSet kw
                         :: match fails tr1 (Startup.TlsSet kw) with
                            | Some _ => []
                            | None => [Startup.TlsInsecureSet false]
                            end
                    else [])
                ++ rest /\
              Forall not_tls rest).
  { intros tr1. unfold bind at 1. rewrite configure_tls_run.
    fold client_auth ca kw.
    destruct (client_auth || ca).
    - destruct (fails tr1 (Startup.TlsSet kw)) as [e | ].
      + exists []. split; [now rewrite app_nil_r | constructor].
      + destruct (fails (tr1 ++ [Startup.TlsSet kw]) _) as [e | ].
        * exists []. split; [now rewrite app_nil_r | constructor].
        * destruct (connect_calls cfg fails
                      (tr1 ++ [Startup.TlsSet kw;
                               Startup.TlsInsecureSet false]))
            as (rest & -> & Hrest).
          exists rest. split; [now rewrite <- app_assoc | exact Hrest].
    - destruct (connect_calls cfg fails tr1) as (rest & -> & Hrest).
      exists rest. split; [reflexivity | exact Hrest]. }
  subst calls user_calls. unfold calls_of, Startup.start_mqtt_client.
  split.
  - intros Hu. unfold bind at 1.
    destruct (Startup.env_truthy (Startup.MQTT_USERNAME cfg)) eqn:Eu.
    + unfold Startup.perform at 1. fold user.
      specialize (Hu eq_refl).
      destruct (fails tr user) as [e | ]; [discriminate Hu | ].
      destruct (Htail (tr ++ [user])) as (rest & -> & Hrest).
      exists rest. split; [ | exact Hrest].
      rewrite <- app_assoc. apply skipn_length_app.
    + unfold ret at 1. rewrite (app_nil_r tr).
      destruct (Htail tr) as (rest & -> & Hrest).
      exists rest. split; [ | exact Hrest].
      apply skipn_length_app.
  - intros e Eu He. unfold bind at 1. rewrite Eu.
    unfold Startup.perform at 1. fold user.
    destruct (fails tr user) as [e' | ]; [ | discriminate He].
    cbn [fst]. apply skipn_length_app.
Qed.

(** The arguments of [tls_set], whenever it is called. *)
Lemma tls_arguments :
  forall cfg fails tr,
    let calls :=
      calls_of (Startup.start_mqtt_client cfg fails true) tr in
    let client_auth :=
      Startup.env_truthy (Startup.MQTT_CLIENT_CERT cfg)
      && Startup.env_truthy (Startup.MQTT_CLIENT_KEY cfg) in
    let ca := Startup.env_truthy (Startup.MQTT_CA_CERT cfg) in
    (forall kw,
       In (Startup.TlsSet kw) calls ->
       kw = if client_auth
            then (if ca then [("ca_certs"%string, Startup.MQTT_CA_CERT cfg)]
                  else [])
                 ++ [("certfile"%string, Startup.MQTT_CLIENT_CERT cfg);
                     ("keyfile"%string, Startup.MQTT_CLIENT_KEY cfg)]
            else [("ca_certs"%string, Startup.MQTT_CA_CERT cfg)]) /\
    (forall kw k v,
       In (Startup.TlsSet kw) calls -> In (k, v) kw ->
       Startup.env_truthy v = true) /\
    (client_auth || ca = false -> forall c, In c calls -> not_tls c) /\
    (forall c,
       In c (calls_of (Startup.start_mqtt_client cfg fails false) tr) ->
       not_tls c).
Proof.
  intros cfg fails tr calls client_auth ca. subst calls client_auth ca.
  unfold calls_of.
  assert (Hd : forall a b c : Startup.env,
            Startup.env_truthy b = true -> Startup.env_truthy c = true ->
            Startup.drop_none
              [("ca_certs"%string, a); ("certfile"%string, b);
               ("keyfile"%string, c)]
            = match a with
              | Some _ => [("ca_certs"%string, a)]
              | None => []
              end ++ [("certfile"%string, b); ("keyfile"%string, c)]).
  { intros [a | ] [b | ] [c | ] Hb Hc; try discriminate; reflexivity. }
  assert (H1 : forall kw,
            In (Startup.TlsSet kw)
              (skipn (List.length tr)
                 (fst (Startup.start_mqtt_client cfg fails true tr))) ->
            kw = if Startup.env_truthy (Startup.MQTT_CLIENT_CERT cfg)
                    && Startup.env_truthy (Startup.MQTT_CLIENT_KEY cfg)
                 then (if Startup.env_truthy (Startup.MQTT_CA_CERT cfg)
                       then [("ca_certs"%string, Startup.MQTT_CA_CERT cfg)]
                       else [])
                      ++ [("certfile"%string, Startup.MQTT_CLIENT_CERT cfg);
                          ("keyfile"%string, Startup.MQTT_CLIENT_KEY cfg)]
                 else [("ca_certs"%string, Startup.MQTT_CA_CERT cfg)]).
  { intros kw. trace_cases fails;
      rewrite ?app_nil_r, ?skipn_length_app; cbn [In];
      intros Hin; try (exfalso; intuition discriminate);
      repeat (destruct Hin as [Hin | Hin]; try discriminate Hin);
      try contradiction;
      try (apply (f_equal (fun c => match c with
                                    | Startup.TlsSet k => k
                                    | _ => []
                                    end)) in Hin; cbv beta iota in Hin;
           subst kw; try reflexivity;
           rewrite Hd by assumption;
           try reflexivity;
           destruct (Startup.MQTT_CA_CERT cfg) as [[| x r] | ];
           try discriminate; reflexivity). }
  assert (H3 : Startup.env_truthy (Startup.MQTT_CLIENT_CERT cfg)
               && Startup.env_truthy (Startup.MQTT_CLIENT_KEY cfg)
               || Startup.env_truthy (Startup.MQTT_CA_CERT cfg) = false ->
               forall c,
                 In c (skipn (List.length tr)
                         (fst (Startup.start_mqtt_client cfg fails true tr))) ->
                 not_tls c).
  { trace_cases fails;
      rewrite ?app_nil_r, ?skipn_length_app; cbn [orb];
      intros Hoff; try discriminate Hoff;
      intros c Hin; cbn in Hin;
      repeat (destruct Hin as [<- | Hin]; [exact I | ]); contradiction. }
  split; [exact H1 | ].
  split; [ | split; [exact H3 | ]].
  - intros kw k v Hin Hkv. pose proof (H1 kw Hin) as Hk.
    destruct (Startup.env_truthy (Startup.MQTT_CLIENT_CERT cfg)) eqn:Ec;
    destruct (Startup.env_truthy (Startup.MQTT_CLIENT_KEY cfg)) eqn:Ek;
    destruct (Startup.env_truthy (Startup.MQTT_CA_CERT cfg)) eqn:Eca;
      cbn [andb orb] in Hk, H3;
      try (exfalso; exact (H3 eq_refl _ Hin));
      subst kw; cbn [app In] in Hkv;
      repeat (destruct Hkv as [Hkv | Hkv]; try contradiction);
      assert (Hv := f_equal snd Hkv); cbn [snd] in Hv; subst v; assumption.
  - intros c. trace_cases fails;
      rewrite ?app_nil_r, ?skipn_length_app;
      intros Hin; cbn in Hin;
      repeat (destruct Hin as [<- | Hin]; [exact I | ]); contradiction.
Qed.

(** X21. TLS is set up exactly once when it is configured and not at
    all otherwise.  Once the credentials are set (or there are none),
    the next call is [tls_set] if a client certificate and its key are
    both configured, with both and preceded by the CA file when there
    is one, or if only a CA file is configured, with that file alone;
    [tls_insecure_set(False)] follows if [tls_set] returned, and no
    later call is a TLS call.  Otherwise, and that includes a
    certificate without a key or a key without a certificate, no TLS
    call is made at all, and none is made when setting the credentials
    raises.  No keyword argument is ever passed with a missing or
    empty value, and the single-topic variant makes no TLS call. *)
Theorem tls_configuration :
  forall cfg fails tr,
    let calls :=
      calls_of (Startup.start_mqtt_client cfg fails true) tr in
    let client_auth :=
      Startup.env_truthy (Startup.MQTT_CLIENT_CERT cfg)
      && Startup.env_truthy (Startup.MQTT_CLIENT_KEY cfg) in
    let ca := Startup.env_truthy (Startup.MQTT_CA_CERT cfg) in
    let kw :=
      if client_auth
      then (if ca then [("ca_certs"%string, Startup.MQTT_CA_CERT cfg)]
            else [])
           ++ [("certfile"%string, Startup.MQTT_CLIENT_CERT cfg);
               ("keyfile"%string, Startup.MQTT_CLIENT_KEY cfg)]
      else [("ca_certs"%string, Startup.MQTT_CA_CERT cfg)] in
    let user :=
      Startup.UsernamePwSet (Startup.MQTT_USERNAME cfg)
        (Startup.MQTT_PASSWORD cfg) in
    let user_calls :=
      if Startup.env_truthy (Startup.MQTT_USERNAME cfg) then [user] else [] in
    ((Startup.env_truthy (Startup.MQTT_USERNAME cfg) = true ->
      fails tr user = None) ->
     exists rest,
       calls
       = user_calls
         ++ (if client_auth || ca
             then Startup.TlsSet kw
                  :: match fails (tr ++ user_calls) (Startup.TlsSet kw) with
                     | Some _ => []
                     | None => [Startup.TlsInsecureSet false]
                     end
             else [])
         ++ rest /\
       Forall not_tls rest) /\
    (forall e,
       Startup.env_truthy (Startup.MQTT_USERNAME cfg) = true ->
       fails tr user = Some e ->
       calls = [user]) /\
    (forall kw', In (Startup.TlsSet kw') calls -> kw' = kw) /\
    (forall kw' k v,
       In (Startup.TlsSet kw') calls -> In (k, v) kw' ->
       Startup.env_truthy v = true) /\
    (client_auth || ca = false -> forall c, In c calls -> not_tls c) /\
    (forall c,
       In c (calls_of (Startup.start_mqtt_client cfg fails false) tr) ->
       not_tls c).
Proof.
  intros cfg fails tr calls client_auth ca kw user user_calls.
  destruct (tls_call_sequence cfg fails tr) as [Hseq Hraise].
  destruct (tls_arguments cfg fails tr) as (Hkw & Hval & Hoff & Hsingle).
  split; [exact Hseq | ].
  split; [exact Hraise | ].
  split; [exact Hkw | ].
  split; [exact Hval | ].
  split; [exact Hoff | exact Hsingle].
Qed.

Lemma tls_configuration_witness :
  (exists rest,
     calls_of (Startup.start_mqtt_client sample_config never_fails true) []
     = [Startup.UsernamePwSet (Some (lit "viewer")) None]
       ++ [Startup.TlsSet
             [("ca_certs"%string, Some (lit "ca.pem"));
              ("certfile"%string, Some (lit "client.pem"));
              ("keyfile"%string, Some (lit "client.key"))];
           Startup.TlsInsecureSet false]
       ++ rest /\
     Forall not_tls rest) /\
  [("ca_certs"%string, Some (lit "ca.pem"));
   ("certfile"%string, Some (lit "client.pem"));
   ("keyfile"%string, Some (lit "client.key"))]
  = [("ca_certs"%string, Startup.MQTT_CA_CERT sample_config)]
    ++ [("certfile"%string, Startup.MQTT_CLIENT_CERT sample_config);
        ("keyfile"%string, Startup.MQTT_CLIENT_KEY sample_config)] /\
  Startup.env_truthy (Some (lit "client.key")) = true.
Proof.
  split; [ | split].
  - apply (proj1 (tls_configuration sample_config never_fails [])).
    reflexivity.
  - apply (proj1 (proj2 (proj2
             (tls_configuration sample_config never_fails [])))).
    cbn. intuition.
  - apply (proj1 (proj2 (proj2 (proj2
             (tls_configuration sample_config never_fails []))))
             [("ca_certs"%string, Some (lit "ca.pem"));
              ("certfile"%string, Some (lit "client.pem"));
              ("keyfile"%string, Some (lit "client.key"))]
             "keyfile"%string).
    + cbn. intuition.
    + cbn. intuition.
Defined.

(** X22. [main] starts the web server only after [start_mqtt_client]
    has returned; if that raises, [main] raises the same exception
    having made no further call.  Once the server was started its
    outcome is the outcome of [main]: an exception of [app.run]
    escapes, and does so even when the cleanup fails.  The cleanup
    always tries [loop_stop], tries [disconnect] only if [loop_stop]
    did not raise, and swallows what either of them raises. *)
Theorem main_serves_only_when_connected :
  forall cfg fails with_tls tr,
    let start := Startup.start_mqtt_client cfg fails with_tls in
    let tr1 := fst (start tr) in
    let app_run :=
      Startup.AppRun (Startup.HTTP_HOST cfg) (Startup.HTTP_PORT cfg) in
    Startup.main cfg fails with_tls tr
    = match snd (start tr) with
      | Raises e => (tr1, Raises e)
      | Returns _ =>
          (tr1 ++ [app_run; Startup.LoopStop]
               ++ match fails (tr1 ++ [app_run]) Startup.LoopStop with
                  | Some _ => []
                  | None => [Startup.Disconnect]
                  end,
           match fails tr1 app_run with
           | Some e => Raises e
           | None => Returns tt
           end)
      end.
Proof.
  intros cfg fails with_tls tr start tr1 app_run. subst start tr1 app_run.
  unfold Startup.main. unfold bind at 1.
  destruct (Startup.start_mqtt_client cfg fails with_tls tr) as [tr1 [u | e]];
    cbn [fst snd]; [ | reflexivity].
  unfold Startup.try_finally, Startup.perform, bind, try_except, raise, ret.
  destruct (fails tr1 _) as [e | ];
    destruct (fails (tr1 ++ _) Startup.LoopStop) as [e1 | ];
    try destruct (fails ((tr1 ++ _) ++ _) Startup.Disconnect) as [e2 | ];
    cbv beta iota zeta; repeat rewrite <- app_assoc; reflexivity.
Qed.

(** [on_connect] asks for the configured subscription when the broker
    accepted the connection, and makes no call otherwise. *)
Lemma on_connect_calls :
  forall cfg fails rc tr,
    calls_of (Startup.on_connect cfg fails rc) tr
    = if Z.eqb rc 0 then [Startup.Subscribe (Startup.MQTT_TOPIC cfg)] else [].
Proof.
  intros cfg fails rc tr. unfold calls_of, Startup.on_connect.
  destruct (Z.eqb rc 0); cbn [Startup.perform ret fst].
  - apply skipn_length_app.
  - unfold ret. cbn [fst].
    rewrite <- (app_nil_r tr) at 2. apply skipn_length_app.
Qed.

(** The shutdown scenario, run: the server dies, stopping the loop
    fails, [disconnect] is skipped and the server's exception is what
    [main] raises. *)
Example main_server_dies :
  Startup.main sample_config server_dies true []
  = ([Startup.UsernamePwSet (Some (lit "viewer")) None;
      Startup.TlsSet
        [("ca_certs"%string, Some (lit "ca.pem"));
         ("certfile"%string, Some (lit "client.pem"));
         ("keyfile"%string, Some (lit "client.key"))];
      Startup.TlsInsecureSet false;
      Startup.Connect (lit "localhost") 1883 60;
      Startup.LoopStart;
      Startup.AppRun (lit "0.0.0.0") 8080;
      Startup.LoopStop],
     Raises OtherError).
Proof. reflexivity. Qed.
